(** * Vehicle tracker: playback, kinematics and marker animation

    A shallow embedding of [src/App.jsx].

    Numbers.  A JavaScript Number is modelled by the exact quantity it
    stands for: indices and epoch milliseconds are integers ([Z]),
    coordinates read from the route file, clock readings and interpolation
    factors are rationals ([Q]), and the haversine distance, which goes
    through [Math.sin], [Math.cos], [Math.sqrt] and [Math.atan2], is a real
    number ([R]).  Rounding of IEEE doubles is outside the model; [NaN],
    where the code can produce it from an unparsable date, is written out
    as a separate case. *)

From Stdlib Require Import ZArith QArith Qminmax Reals Lra Lia List String Ascii Bool.
From Stdlib Require Import DecimalString.
From Stdlib Require Lqa.
Import ListNotations.

(** ** Data *)

(** A route point as built by [loadRouteData]: [{lat, lng, timestamp}].
    [timestamp] is the string of the route file; [None] stands for a
    missing field ([null] / [undefined]). *)
Record Waypoint := mkWaypoint {
  lat : Q;
  lng : Q;
  timestamp : option string
}.

(** [routeData[i]] for a Number [i] holding an integer: [undefined]
    ([None]) outside [0 .. length-1], negative indices included. *)
Definition lookup {A : Type} (l : list A) (i : Z) : option A :=
  if (i <? 0)%Z then None else nth_error l (Z.to_nat i).

(** [routeData.length]. *)
Definition len {A : Type} (l : list A) : Z := Z.of_nat (List.length l).

(** ** Kinematics calculator *)

Module Kinematics.

Local Open Scope R_scope.

(** [Math.atan2(y, x)] on real arguments. *)
Definition Math_atan2 (y x : R) : R :=
  if Rlt_dec 0 x then atan (y / x)
  else if Rlt_dec x 0 then
         (if Rle_dec 0 y then atan (y / x) + PI else atan (y / x) - PI)
  else if Rlt_dec 0 y then PI / 2
  else if Rlt_dec y 0 then - PI / 2
  else 0.

(** [calculateDistanceKm(lat1, lon1, lat2, lon2)], lines 8-20.  Over the
    reals the haversine term [a] stays within [0, 1]; in doubles it can
    round just above 1 for nearly antipodal points, where the code
    returns [NaN]: that case is outside the model. *)
Definition calculateDistanceKm (lat1 lon1 lat2 lon2 : R) : R :=
  let R_ := 6371 in
  let dLat := (lat2 - lat1) * PI / 180 in
  let dLon := (lon2 - lon1) * PI / 180 in
  let a :=
    sin (dLat / 2) * sin (dLat / 2) +
    cos (lat1 * PI / 180) * cos (lat2 * PI / 180) *
    sin (dLon / 2) * sin (dLon / 2) in
  let c := 2 * Math_atan2 (sqrt a) (sqrt (1 - a)) in
  R_ * c.

(** The distance between two route points, as [calculateSpeedKmH] calls
    it: [calculateDistanceKm(prev.lat, prev.lng, curr.lat, curr.lng)]. *)
Definition distanceKm (a b : Waypoint) : R :=
  calculateDistanceKm (Q2R (lat a)) (Q2R (lng a)) (Q2R (lat b)) (Q2R (lng b)).

Local Close Scope R_scope.
Local Open Scope Z_scope.
Local Open Scope string_scope.

(** [String(n)] for a Number holding an integer. *)
Definition String_of_Z (n : Z) : string := NilZero.string_of_int (Z.to_int n).

(** [s.padStart(targetLength, c)] for a one-character filler. *)
Definition padStart (targetLength : nat) (c : ascii) (s : string) : string :=
  string_of_list_ascii (repeat c (targetLength - String.length s)) ++ s.

(** [x.toFixed(2)] for a real [x] below 10^21 in magnitude: the sign, then
    the integer [n] for which [n / 100] is nearest to [|x|] (the larger one
    on a tie), printed with two decimals. *)
Definition toFixed2 (x : R) : string :=
  let n := Int_part (Rabs x * 100 + / 2)%R in
  (if Rlt_dec x 0 then "-" else "") ++
  String_of_Z (n / 100) ++ "." ++ padStart 2 "0"%char (String_of_Z (n mod 100)).

(** A JavaScript value is falsy: here a missing timestamp or the empty
    string ([!startTime]). *)
Definition falsy (t : option string) : bool :=
  match t with
  | None => true
  | Some s => (String.length s =? 0)%nat
  end.

Section WithDate.

(** [new Date(t).getTime()]: the epoch milliseconds of a timestamp, or
    [None] for [NaN] (an invalid date).  [Date] is the host's. *)
Variable Date_getTime : option string -> option Z.

(** [timeDeltaMs] of [calculateSpeedKmH], line 39; [None] is [NaN]. *)
Definition timeDeltaMs (prevPoint currPoint : Waypoint) : option Z :=
  match Date_getTime (timestamp currPoint), Date_getTime (timestamp prevPoint) with
  | Some c, Some p => Some (c - p)
  | _, _ => None
  end.

(** [timeDeltaMs / (1000 * 60 * 60)], line 40. *)
Definition timeDeltaHours (ms : Z) : R := (IZR ms / (1000 * 60 * 60))%R.

(** [calculateSpeedKmH(currentIndex, routeData)], lines 26-46.  With a
    [NaN] time delta the test [timeDeltaHours <= 0] is false and
    [NaN.toFixed(2)] is ["NaN"]. *)
Definition calculateSpeedKmH (currentIndex : Z) (routeData : list Waypoint) : string :=
  if (currentIndex =? 0)%Z || (len routeData <=? 1)%Z then "0.00"
  else
    match lookup routeData (currentIndex - 1), lookup routeData currentIndex with
    | Some prevPoint, Some currPoint =>
        match timeDeltaMs prevPoint currPoint with
        | None => "NaN"
        | Some ms =>
            if Rle_dec (timeDeltaHours ms) 0 then "N/A"
            else toFixed2 (distanceKm prevPoint currPoint / timeDeltaHours ms)%R
        end
    | _, _ => "0.00"
    end.

(** [formatElapsedTime(startTime, currentTime)], lines 51-60.
    [Math.floor(x / k)] is [Z.div], [%] is [Z.rem]; with an invalid date
    every quantity is [NaN] and the label is ["NaN:NaN"]. *)
Definition formatElapsedTime (startTime currentTime : option string) : string :=
  if falsy startTime || falsy currentTime then "00:00"
  else
    match Date_getTime currentTime, Date_getTime startTime with
    | Some c, Some s =>
        let deltaMs := c - s in
        let seconds := deltaMs / 1000 in
        let minutes := seconds / 60 in
        let remainingSeconds := Z.rem seconds 60 in
        padStart 2 "0"%char (String_of_Z minutes) ++ ":" ++
        padStart 2 "0"%char (String_of_Z remainingSeconds)
    | _, _ => "NaN:NaN"
    end.

End WithDate.

(** The character of a decimal digit [0 .. 9], and a two-digit field;
    they serve to state the shape of the labels. *)
Definition decimalDigit (d : Z) : ascii := ascii_of_nat (48 + Z.to_nat d).

Definition twoDigits (n : Z) : string :=
  String (decimalDigit (n / 10)) (String (decimalDigit (n mod 10)) "").

(** A [Date] that knows three timestamps of 20 July 2024 and rejects
    everything else, for the worked examples. *)
Definition exampleDate (t : option string) : option Z :=
  match t with
  | None => None
  | Some s =>
      if String.eqb s "2024-07-20T10:00:00Z" then Some 1721469600000
      else if String.eqb s "2024-07-20T10:00:05Z" then Some 1721469605000
      else if String.eqb s "2024-07-20T11:15:03Z" then Some 1721474103000
      else None
  end.

(** A route of three points with those timestamps. *)
Definition exampleRoute : list Waypoint :=
  [ mkWaypoint (17385044 # 1000000) (78486671 # 1000000) (Some "2024-07-20T10:00:00Z");
    mkWaypoint (173855 # 10000) (784867 # 10000) (Some "2024-07-20T10:00:05Z");
    mkWaypoint (17386 # 1000) (78487 # 1000) (Some "2024-07-20T11:15:03Z") ].

(** [progressPercentage] of the render, lines 217-219. *)
Definition progressPercentage (currentIndex : Z) (routeData_length : Z) : Q :=
  if (routeData_length >? 0)%Z
  then (((inject_Z (currentIndex + 1)) / inject_Z routeData_length) * 100)%Q
  else 0%Q.

End Kinematics.

(** ** Playback controller

    The [App] component's state ([useState] cells and the [intervalRef]
    ref), the host's table of live intervals, and one function per thing
    that can happen: the route file arriving, a click on a control button,
    the interval firing.  After each of them React renders again and, when
    a dependency of the simulation effect changed, runs the effect's
    cleanup and then its body. *)

Module Playback.

Local Open Scope Z_scope.

(** A live interval: its id and the [routeData] its callback closed over. *)
Record Timer := mkTimer {
  timerId : nat;
  captured : list Waypoint
}.

Record AppState := mkApp {
  routeData : list Waypoint;
  currentIndex : Z;
  isPlaying : bool;
  isLoading : bool;
  intervalRef : option nat;     (* [intervalRef.current], [null] at first *)
  timers : list Timer;          (* intervals set and not yet cleared *)
  nextTimerId : nat             (* the id the next [setInterval] returns *)
}.

(** The state after the first render and its effects: nothing loaded,
    nothing playing, no interval. *)
Definition initial : AppState :=
  mkApp [] 0 false true None [] 1.

Definition setCurrentIndex (i : Z) (s : AppState) : AppState :=
  mkApp (routeData s) i (isPlaying s) (isLoading s)
        (intervalRef s) (timers s) (nextTimerId s).

Definition setIsPlaying (b : bool) (s : AppState) : AppState :=
  mkApp (routeData s) (currentIndex s) b (isLoading s)
        (intervalRef s) (timers s) (nextTimerId s).

Definition setRouteData (rd : list Waypoint) (s : AppState) : AppState :=
  mkApp rd (currentIndex s) (isPlaying s) (isLoading s)
        (intervalRef s) (timers s) (nextTimerId s).

Definition setIsLoading (b : bool) (s : AppState) : AppState :=
  mkApp (routeData s) (currentIndex s) (isPlaying s) b
        (intervalRef s) (timers s) (nextTimerId s).

(** [clearInterval(id)]: unknown ids are ignored. *)
Definition clearInterval (id : nat) (s : AppState) : AppState :=
  mkApp (routeData s) (currentIndex s) (isPlaying s) (isLoading s)
        (intervalRef s)
        (filter (fun t => negb (Nat.eqb (timerId t) id)) (timers s))
        (nextTimerId s).

(** [intervalRef.current = setInterval(callback, 2000)], the callback
    closing over the [routeData] of the render that ran the effect. *)
Definition setIntervalRef (s : AppState) : AppState :=
  mkApp (routeData s) (currentIndex s) (isPlaying s) (isLoading s)
        (Some (nextTimerId s))
        (timers s ++ [mkTimer (nextTimerId s) (routeData s)])
        (S (nextTimerId s)).

(** The cleanup of the simulation effect, lines 181-185. *)
Definition effectCleanup (s : AppState) : AppState :=
  match intervalRef s with
  | Some id => clearInterval id s
  | None => s
  end.

(** The body of the simulation effect, lines 167-178. *)
Definition effectBody (s : AppState) : AppState :=
  if isPlaying s && (len (routeData s) >? 0)
     && (currentIndex s <? len (routeData s) - 1)
  then setIntervalRef s
  else s.

(** The effect's dependencies [isPlaying, currentIndex, routeData];
    [newRoute] says that [routeData] was replaced by a new array. *)
Definition depsChanged (newRoute : bool) (old new : AppState) : bool :=
  newRoute
  || negb (Bool.eqb (isPlaying old) (isPlaying new))
  || negb (currentIndex old =? currentIndex new).

(** The render that follows a state update. *)
Definition rerender (newRoute : bool) (old new : AppState) : AppState :=
  if depsChanged newRoute old new then effectBody (effectCleanup new) else new.

(** The interval's callback, lines 168-176:
    [setCurrentIndex(prevIndex => ...)] with the captured [routeData]. *)
Definition intervalCallback (rd : list Waypoint) (s : AppState) : AppState :=
  if currentIndex s >=? len rd - 1
  then setIsPlaying false s
  else setCurrentIndex (currentIndex s + 1) s.

(** One firing of the ticker: the oldest live interval runs its callback;
    with no live interval nothing happens. *)
Definition tick (s : AppState) : AppState :=
  match timers s with
  | [] => s
  | t :: _ => rerender false s (intervalCallback (captured t) s)
  end.

(** [togglePlay], lines 190-198. *)
Definition togglePlay (s : AppState) : AppState :=
  if currentIndex s >=? len (routeData s) - 1
  then setIsPlaying true (setCurrentIndex 0 s)
  else setIsPlaying (negb (isPlaying s)) s.

(** [resetSimulation], lines 200-203. *)
Definition resetSimulation (s : AppState) : AppState :=
  setCurrentIndex 0 (setIsPlaying false s).

(** The control buttons exist only once loading is over (the loading
    screen of lines 231-240 has none) and carry
    [disabled={routeData.length === 0}], lines 366 and 377. *)
Definition controlsEnabled (s : AppState) : bool :=
  negb (isLoading s) && negb (len (routeData s) =? 0).

(** The play / pause / replay command: a click on the first button. *)
Definition play (s : AppState) : AppState :=
  if controlsEnabled s then rerender false s (togglePlay s) else s.

(** The reset command: a click on the second button. *)
Definition reset (s : AppState) : AppState :=
  if controlsEnabled s then rerender false s (resetSimulation s) else s.

(** [loadRouteData] once the fetch has answered, lines 147-154; the
    request is made once, so a second answer never comes. *)
Definition load (rd : list Waypoint) (s : AppState) : AppState :=
  if isLoading s
  then rerender true s (setIsLoading false (setRouteData rd s))
  else s.

(** The [catch] branch of [loadRouteData], lines 155-158. *)
Definition loadFailed (s : AppState) : AppState :=
  if isLoading s then setIsLoading false s else s.

(** What the first button shows, line 373. *)
Inductive ControlLabel := LabelPause | LabelReplay | LabelPlay.

Definition controlLabel (s : AppState) : ControlLabel :=
  if isPlaying s then LabelPause
  else if currentIndex s >=? len (routeData s) - 1 then LabelReplay
  else LabelPlay.

(** Everything that can happen to the component. *)
Inductive Event :=
| RouteLoaded (rd : list Waypoint)
| RouteFailed
| ClickPlay
| ClickReset
| IntervalFires.

Definition step (e : Event) (s : AppState) : AppState :=
  match e with
  | RouteLoaded rd => load rd s
  | RouteFailed => loadFailed s
  | ClickPlay => play s
  | ClickReset => reset s
  | IntervalFires => tick s
  end.

(** Events applied in order, oldest first. *)
Definition run (es : list Event) (s : AppState) : AppState :=
  fold_left (fun acc e => step e acc) es s.

(** The states the component can be in. *)
Inductive reachable : AppState -> Prop :=
| reachable_initial : reachable initial
| reachable_step : forall e s, reachable s -> reachable (step e s).

(** The state that holds in every reachable state: the part about the
    [useState] cells ... *)
Definition dataInv (s : AppState) : Prop :=
  (isLoading s = true -> routeData s = []) /\
  (routeData s = [] -> currentIndex s = 0 /\ isPlaying s = false) /\
  0 <= currentIndex s /\
  (routeData s <> [] -> currentIndex s <= len (routeData s) - 1).

(** ... and the part about the ticker: a live interval is the one
    [intervalRef] names, closes over the current route, and exists only
    while playing before the last index; there is never more than one. *)
Definition timerInv (s : AppState) : Prop :=
  (forall t, In t (timers s) ->
             captured t = routeData s /\ intervalRef s = Some (timerId t)) /\
  (timers s <> [] ->
   isPlaying s = true /\ currentIndex s < len (routeData s) - 1) /\
  (List.length (timers s) <= 1)%nat.

Definition Inv (s : AppState) : Prop := dataInv s /\ timerInv s.

(** Playback under way at index [k] of route [rd]: the ticker is armed
    before the last index and absent at it. *)
Definition playingAt (rd : list Waypoint) (k : Z) (s : AppState) : Prop :=
  routeData s = rd /\ currentIndex s = k /\ isPlaying s = true /\
  isLoading s = false /\
  (forall t, In t (timers s) -> intervalRef s = Some (timerId t)) /\
  (if k <? len rd - 1
   then exists id, timers s = [mkTimer id rd]
   else timers s = []).

(** While playing before the last index an interval is live. *)
Definition armedWhilePlaying (s : AppState) : Prop :=
  isPlaying s = true -> currentIndex s < len (routeData s) - 1 ->
  timers s <> [].

(** At the last index of a route of two or more points the component is
    still playing. *)
Definition playingAtEnd (s : AppState) : Prop :=
  2 <= len (routeData s) -> currentIndex s = len (routeData s) - 1 ->
  isPlaying s = true.

End Playback.

(** ** Interpolation animator

    The [AnimatedMarker] component: the Leaflet marker, the
    [prevPositionRef] ref and the host's list of callbacks registered with
    [requestAnimationFrame].  The component never calls
    [cancelAnimationFrame] and its effect returns no cleanup. *)

Module Animator.

Local Open Scope Q_scope.

(** A position array [[lat, lng]]. *)
Definition LatLng : Type := (Q * Q)%type.

(** The closure [animate] of one run of the effect: what it captured. *)
Record Loop := mkLoop {
  startLatLng : LatLng;
  endLatLng : LatLng;
  startTime : Q;              (* [performance.now()] when the effect ran *)
  duration : Q
}.

Record AnimState := mkAnim {
  markerRef : bool;                   (* [markerRef.current] is set *)
  markerLatLng : LatLng;              (* where the marker is *)
  setLatLngCalls : list LatLng;       (* every [marker.setLatLng], oldest first *)
  prevPositionRef : option LatLng;    (* [prevPositionRef.current] *)
  frames : list Loop;                 (* callbacks waiting for the next frame *)
  panToCalls : list LatLng            (* every [map.panTo], oldest first *)
}.

(** The component once mounted at [position]: the ref was initialised
    with [useRef(position)] and the first run of the effect found the two
    positions equal. *)
Definition mounted (position : LatLng) : AnimState :=
  mkAnim true position [] (Some position) [] [].

Definition setLatLng (p : LatLng) (s : AnimState) : AnimState :=
  mkAnim (markerRef s) p (setLatLngCalls s ++ [p]) (prevPositionRef s)
         (frames s) (panToCalls s).

Definition setPrevPosition (p : LatLng) (s : AnimState) : AnimState :=
  mkAnim (markerRef s) (markerLatLng s) (setLatLngCalls s) (Some p)
         (frames s) (panToCalls s).

(** [requestAnimationFrame(animate)]: the callback joins the end of the
    list for the next frame. *)
Definition requestAnimationFrame (l : Loop) (s : AnimState) : AnimState :=
  mkAnim (markerRef s) (markerLatLng s) (setLatLngCalls s) (prevPositionRef s)
         (frames s ++ [l]) (panToCalls s).

Definition panTo (p : LatLng) (s : AnimState) : AnimState :=
  mkAnim (markerRef s) (markerLatLng s) (setLatLngCalls s) (prevPositionRef s)
         (frames s) (panToCalls s ++ [p]).

Definition takeFrames (s : AnimState) : AnimState :=
  mkAnim (markerRef s) (markerLatLng s) (setLatLngCalls s) (prevPositionRef s)
         [] (panToCalls s).

(** [startLatLng[0] === endLatLng[0] && startLatLng[1] === endLatLng[1]]. *)
Definition sameLatLng (a b : LatLng) : bool :=
  Qeq_bool (fst a) (fst b) && Qeq_bool (snd a) (snd b).

(** [Math.min(1, elapsedTime / duration)], line 88.  [App] leaves
    [duration] at its default, 2000; a zero duration is outside the model. *)
Definition progress (l : Loop) (currentTime : Q) : Q :=
  Qmin 1 ((currentTime - startTime l) / duration l).

(** The linear interpolation of lines 91-92. *)
Definition interpolate (l : Loop) (currentTime : Q) : LatLng :=
  (fst (startLatLng l)
     + (fst (endLatLng l) - fst (startLatLng l)) * progress l currentTime,
   snd (startLatLng l)
     + (snd (endLatLng l) - snd (startLatLng l)) * progress l currentTime).

(** [progress < 1], line 96. *)
Definition unfinished (l : Loop) (currentTime : Q) : bool :=
  negb (Qle_bool 1 (progress l currentTime)).

(** The frame callback [animate(currentTime)], lines 86-102. *)
Definition animate (l : Loop) (currentTime : Q) (s : AnimState) : AnimState :=
  let s1 := setLatLng (interpolate l currentTime) s in
  if unfinished l currentTime
  then requestAnimationFrame l s1
  else setPrevPosition (endLatLng l) (setLatLng (endLatLng l) s1).

(** The effect of lines 72-109, run at clock reading [now] for the
    [position] prop of the render.  [App] always passes an array, so
    [position] itself is never falsy. *)
Definition effect (now : Q) (position : LatLng) (dur : Q) (s : AnimState)
  : AnimState :=
  if markerRef s then
    match prevPositionRef s with
    | None => setPrevPosition position s
    | Some start =>
        if sameLatLng start position
        then setPrevPosition position s
        else panTo position
               (requestAnimationFrame (mkLoop start position now dur) s)
    end
  else s.

(** One display frame at time [currentTime]: the host calls every
    callback registered so far, in the order they were registered; what
    they register in turn waits for the frame after. *)
Definition runFrame (currentTime : Q) (s : AnimState) : AnimState :=
  fold_left (fun acc l => animate l currentTime acc) (frames s) (takeFrames s).

(** The positions one call of [animate] hands to [marker.setLatLng]. *)
Definition animateWrites (currentTime : Q) (l : Loop) : list LatLng :=
  if unfinished l currentTime
  then [interpolate l currentTime]
  else [interpolate l currentTime; endLatLng l].

(** Several frames in a row, oldest first. *)
Definition runFrames (times : list Q) (s : AnimState) : AnimState :=
  fold_left (fun acc t => runFrame t acc) times s.

(** A position with both coordinates in lowest terms, to compare
    computed positions with literals. *)
Definition normalise (p : LatLng) : LatLng := (Qred (fst p), Qred (snd p)).

(** A worked scenario: the marker rests at (0,0); at time 0 the target
    becomes (10,0); a frame runs at 1000, half way; at that moment the
    target changes again, to (10,10). *)
Definition firstLoop : Loop := mkLoop (0, 0) (10, 0) 0 2000.

Definition secondLoop : Loop := mkLoop (0, 0) (10, 10) 1000 2000.

Definition halfWay : AnimState :=
  runFrame 1000 (effect 0 (10, 0) 2000 (mounted (0, 0))).

Definition superseded : AnimState := effect 1000 (10, 10) 2000 halfWay.

End Animator.

(** ** What the render derives from the state *)

Module Render.

Local Open Scope Z_scope.

(** [INITIAL_CENTER], line 125. *)
Definition INITIAL_CENTER : Q * Q := (17385044 # 1000000, 78486671 # 1000000)%Q.

(** [currentPosition], lines 207-211: the point at [currentIndex], else
    the first point, else the initial centre with a [null] timestamp.
    Route points are objects, hence truthy. *)
Definition currentPosition (routeData : list Waypoint) (currentIndex : Z)
  : Waypoint :=
  match lookup routeData currentIndex with
  | Some p => p
  | None =>
      match lookup routeData 0 with
      | Some p => p
      | None => mkWaypoint (fst INITIAL_CENTER) (snd INITIAL_CENTER) None
      end
  end.

(** [array.slice(start, end)] for integer arguments: a negative bound
    counts from the end, and both are clamped to the array. *)
Definition slice {A : Type} (l : list A) (start end_ : Z) : list A :=
  let n := len l in
  let k := if start <? 0 then Z.max (n + start) 0 else Z.min start n in
  let final := if end_ <? 0 then Z.max (n + end_) 0 else Z.min end_ n in
  firstn (Z.to_nat (final - k)) (skipn (Z.to_nat k) l).

(** [p => [p.lat, p.lng]]. *)
Definition coords (p : Waypoint) : Q * Q := (lat p, lng p).

(** [fullRouteCoords], line 213. *)
Definition fullRouteCoords (routeData : list Waypoint) : list (Q * Q) :=
  map coords routeData.

(** [traveledRouteCoords], line 214. *)
Definition traveledRouteCoords (routeData : list Waypoint) (currentIndex : Z)
  : list (Q * Q) :=
  map coords (slice routeData 0 (currentIndex + 1)).

(** The [position] prop handed to [AnimatedMarker], line 286. *)
Definition markerPosition (routeData : list Waypoint) (currentIndex : Z)
  : Q * Q :=
  coords (currentPosition routeData currentIndex).

(** The elapsed-time field, line 337:
    [routeData.length > 0 && formatElapsedTime(...)]; [None] when the
    expression is [false] and nothing is shown. *)
Definition elapsedDisplay (Date_getTime : option string -> option Z)
    (routeData : list Waypoint) (currentIndex : Z) : option string :=
  match routeData with
  | [] => None
  | first :: _ =>
      Some (Kinematics.formatElapsedTime Date_getTime (timestamp first)
              (timestamp (currentPosition routeData currentIndex)))
  end.

End Render.

(** * Properties *)

(** ** Kinematics *)

Section DistanceFacts.

Import Kinematics.
Local Open Scope R_scope.

Lemma Math_atan2_0_1 : Math_atan2 0 1 = 0.
Proof.
  unfold Math_atan2.
  destruct (Rlt_dec 0 1) as [_ | H]; [ | exfalso; apply H; lra ].
  replace (0 / 1) with 0 by field.
  apply atan_0.
Qed.

(** The squared half-angle sine does not see the order of its two
    endpoints. *)
Lemma sin_half_sq_swap (x y : R) :
  sin ((y - x) * PI / 180 / 2) * sin ((y - x) * PI / 180 / 2) =
  sin ((x - y) * PI / 180 / 2) * sin ((x - y) * PI / 180 / 2).
Proof.
  replace ((y - x) * PI / 180 / 2) with (- ((x - y) * PI / 180 / 2)) by field.
  rewrite sin_neg. ring.
Qed.

(** C8. [calculateDistanceKm] is symmetric in its two points, and the
    distance from a point to itself is 0. *)
Theorem calculateDistanceKm_symmetric_and_zero :
  (forall lat1 lon1 lat2 lon2 : R,
      calculateDistanceKm lat1 lon1 lat2 lon2 =
      calculateDistanceKm lat2 lon2 lat1 lon1) /\
  (forall a b : Waypoint, distanceKm a b = distanceKm b a) /\
  (forall lat1 lon1 : R, calculateDistanceKm lat1 lon1 lat1 lon1 = 0) /\
  (forall a : Waypoint, distanceKm a a = 0).
Proof.
  assert (Hsym : forall lat1 lon1 lat2 lon2 : R,
             calculateDistanceKm lat1 lon1 lat2 lon2 =
             calculateDistanceKm lat2 lon2 lat1 lon1).
  { intros lat1 lon1 lat2 lon2. unfold calculateDistanceKm. cbv zeta.
    rewrite (sin_half_sq_swap lat1 lat2).
    rewrite (Rmult_comm (cos (lat1 * PI / 180)) (cos (lat2 * PI / 180))).
    rewrite !Rmult_assoc.
    rewrite (sin_half_sq_swap lon1 lon2).
    reflexivity. }
  assert (Hzero : forall lat1 lon1 : R, calculateDistanceKm lat1 lon1 lat1 lon1 = 0).
  { intros lat1 lon1. unfold calculateDistanceKm. cbv zeta.
    replace ((lat1 - lat1) * PI / 180 / 2) with 0 by field.
    replace ((lon1 - lon1) * PI / 180 / 2) with 0 by field.
    rewrite sin_0.
    replace (0 * 0 + cos (lat1 * PI / 180) * cos (lat1 * PI / 180) * 0 * 0)
      with 0 by ring.
    rewrite Rminus_0_r, sqrt_0, sqrt_1, Math_atan2_0_1. ring. }
  repeat split.
  - exact Hsym.
  - intros a b. unfold distanceKm. apply Hsym.
  - exact Hzero.
  - intros a. unfold distanceKm. apply Hzero.
Qed.

(** [Math.atan2] of two non-negative arguments is an angle of the first
    quadrant. *)
Lemma Math_atan2_first_quadrant (y x : R) :
  0 <= y -> 0 <= x -> 0 <= Math_atan2 y x <= PI / 2.
Proof.
  intros Hy Hx. pose proof PI_RGT_0 as Hpi. unfold Math_atan2.
  destruct (Rlt_dec 0 x) as [Hpos | Hnpos].
  - assert (Hq : 0 <= y / x).
    { unfold Rdiv. apply Rmult_le_pos; [ exact Hy | ].
      left. apply Rinv_0_lt_compat. exact Hpos. }
    split.
    + destruct Hq as [Hq | Hq].
      * left. rewrite <- atan_0. apply atan_increasing. exact Hq.
      * rewrite <- Hq, atan_0. apply Rle_refl.
    + left. apply atan_bound.
  - destruct (Rlt_dec x 0) as [Hneg | _]; [ lra | ].
    destruct (Rlt_dec 0 y) as [_ | _]; [ lra | ].
    destruct (Rlt_dec y 0) as [Hyneg | _]; lra.
Qed.

(** Over the reals the distance is not negative. *)
Lemma distance_nonneg (lat1 lon1 lat2 lon2 : R) :
  0 <= calculateDistanceKm lat1 lon1 lat2 lon2.
Proof.
  unfold calculateDistanceKm. cbv zeta.
  match goal with
  | |- context [ Math_atan2 (sqrt ?a) (sqrt ?b) ] =>
      pose proof (Math_atan2_first_quadrant (sqrt a) (sqrt b)
                    (sqrt_pos a) (sqrt_pos b)) as H
  end.
  lra.
Qed.

End DistanceFacts.

Section ProgressFacts.

Import Kinematics.
Local Open Scope Q_scope.

Lemma progressPercentage_pos (index length : Z) :
  (0 < length)%Z ->
  progressPercentage index length =
  inject_Z (index + 1) / inject_Z length * 100.
Proof.
  intros H. unfold progressPercentage.
  destruct (Z.gtb_spec length 0) as [_ | Hn]; [ reflexivity | lia ].
Qed.

Lemma inject_Z_nonzero (n : Z) : (0 < n)%Z -> ~ inject_Z n == 0.
Proof.
  intros H E. unfold Qeq in E. simpl in E. lia.
Qed.

Lemma ratio_bounds (i n : Z) :
  (0 < n)%Z -> (0 <= i <= n - 1)%Z ->
  0 <= inject_Z (i + 1) / inject_Z n * 100 <= 100.
Proof.
  intros Hn Hi.
  assert (Hq : 0 < inject_Z n) by (unfold Qlt; simpl; lia).
  assert (H0 : 0 <= inject_Z (i + 1) / inject_Z n).
  { apply Qle_shift_div_l; [ exact Hq | ].
    rewrite Qmult_0_l. unfold Qle. simpl. lia. }
  assert (H1 : inject_Z (i + 1) / inject_Z n <= 1).
  { apply Qle_shift_div_r; [ exact Hq | ].
    rewrite Qmult_1_l. unfold Qle. simpl. lia. }
  split.
  - apply Qmult_le_0_compat; [ exact H0 | discriminate ].
  - setoid_replace 100 with (1 * 100) at 2 by reflexivity.
    apply Qmult_le_compat_r; [ exact H1 | discriminate ].
Qed.

(** C9, as the code has it.  The render computes a percentage: for a
    positive length [progressPercentage] is [(index+1)/length * 100], it is
    0 for length 0, it is 100 at the last index and lies between 0 and 100
    at every valid index. *)
Theorem progressPercentage_is_percentage (index length : Z) :
  (0 < length)%Z -> (0 <= index <= length - 1)%Z ->
  (forall j, progressPercentage j 0 = 0) /\
  (forall j, progressPercentage j length =
             inject_Z (j + 1) / inject_Z length * 100) /\
  progressPercentage (length - 1) length == 100 /\
  0 <= progressPercentage index length <= 100.
Proof.
  intros Hn Hi. repeat apply conj.
  - intros j. reflexivity.
  - intros j. apply progressPercentage_pos. exact Hn.
  - rewrite progressPercentage_pos by exact Hn.
    replace (length - 1 + 1)%Z with length by lia.
    field. apply inject_Z_nonzero. exact Hn.
  - rewrite progressPercentage_pos by exact Hn.
    apply (ratio_bounds index length Hn Hi).
  - rewrite progressPercentage_pos by exact Hn.
    apply (ratio_bounds index length Hn Hi).
Qed.

Lemma progressPercentage_is_percentage_witness :
  (forall j, progressPercentage j 0 = 0) /\
  (forall j, progressPercentage j 3 = inject_Z (j + 1) / inject_Z 3 * 100) /\
  progressPercentage (3 - 1) 3 == 100 /\
  0 <= progressPercentage 1 3 <= 100.
Proof.
  apply (progressPercentage_is_percentage 1 3); lia.
Defined.

(** C9 as the specification words it fails: on a one-point route the
    value at the last index is 100, which is neither 1 nor within
    [0, 1]. *)
Lemma progressPercentage_not_a_fraction :
  progressPercentage (1 - 1) 1 == 100 /\
  ~ progressPercentage (1 - 1) 1 == 1 /\
  ~ progressPercentage (1 - 1) 1 <= 1.
Proof.
  repeat apply conj.
  - reflexivity.
  - intros E. vm_compute in E. discriminate E.
  - intros E. vm_compute in E. apply E. reflexivity.
Qed.

End ProgressFacts.

Section SpeedFacts.

Import Kinematics.
Local Open Scope string_scope.

Variable Date_getTime : option string -> option Z.

(** Array access by integer index. *)
Lemma lookup_Some_iff {A : Type} (l : list A) (i : Z) :
  (exists x, lookup l i = Some x) <-> (0 <= i <= len l - 1)%Z.
Proof.
  unfold lookup, len. destruct (Z.ltb_spec i 0) as [Hneg | Hpos].
  - split; [ intros [x Hx]; discriminate Hx | lia ].
  - split.
    + intros [x Hx].
      assert (Hlt : (Z.to_nat i < List.length l)%nat)
        by (apply nth_error_Some; rewrite Hx; discriminate).
      lia.
    + intros Hi.
      destruct (nth_error l (Z.to_nat i)) as [x | ] eqn:E.
      * exists x. reflexivity.
      * apply nth_error_None in E. lia.
Qed.

Lemma lookup_None_iff {A : Type} (l : list A) (i : Z) :
  lookup l i = None <-> (i < 0 \/ len l <= i)%Z.
Proof.
  split.
  - intros E. destruct (Z.ltb_spec i 0) as [Hneg | Hpos]; [ lia | ].
    destruct (Z.leb_spec (len l) i) as [Hle | Hlt]; [ lia | ].
    assert (H : exists x, lookup l i = Some x) by (apply lookup_Some_iff; lia).
    destruct H as [x Hx]. rewrite E in Hx. discriminate Hx.
  - intros H. destruct (lookup l i) as [x | ] eqn:E; [ | reflexivity ].
    assert (Hi : (0 <= i <= len l - 1)%Z)
      by (apply lookup_Some_iff; exists x; exact E).
    lia.
Qed.

(** A printed integer starts with a digit or a minus sign. *)
Lemma String_of_Z_head (n : Z) :
  exists c s, String_of_Z n = String c s /\ c <> "N"%char.
Proof.
  unfold String_of_Z. generalize (Z.to_int n). intros i.
  destruct i as [d | d]; simpl.
  - destruct d; simpl; eexists; eexists; (split; [ reflexivity | discriminate ]).
  - eexists; eexists; (split; [ reflexivity | discriminate ]).
Qed.

(** A printed non-negative integer starts with a digit, not a sign. *)
Lemma String_of_Z_unsigned (n : Z) :
  (0 <= n)%Z -> exists c s, String_of_Z n = String c s /\ c <> "-"%char.
Proof.
  intros Hn. unfold String_of_Z.
  destruct n as [ | q | q]; [ | | lia ]; simpl.
  - eexists; eexists; (split; [ reflexivity | discriminate ]).
  - destruct (Pos.to_uint q); simpl;
      eexists; eexists; (split; [ reflexivity | discriminate ]).
Qed.

Lemma toFixed2_not_sentinel (x : R) : toFixed2 x <> "N/A".
Proof.
  unfold toFixed2.
  destruct (Rlt_dec x 0) as [Hneg | Hpos]; simpl.
  - discriminate.
  - match goal with
    | |- context [ String_of_Z ?q ++ ?rest ] =>
        destruct (String_of_Z_head q) as (c & s & E & Hc); rewrite E
    end.
    simpl. intros H. injection H as H _. apply Hc. exact H.
Qed.

Lemma timeDeltaHours_nonpos_iff (ms : Z) :
  (timeDeltaHours ms <= 0)%R <-> (ms <= 0)%Z.
Proof.
  unfold timeDeltaHours. split.
  - intros H. apply le_IZR.
    assert (H' : (IZR ms / (1000 * 60 * 60) * (1000 * 60 * 60) <= 0)%R) by nra.
    replace (IZR ms / (1000 * 60 * 60) * (1000 * 60 * 60))%R
      with (IZR ms) in H' by (field; lra).
    exact H'.
  - intros H. apply IZR_le in H.
    unfold Rdiv.
    assert (Hinv : (0 < / (1000 * 60 * 60))%R) by (apply Rinv_0_lt_compat; lra).
    nra.
Qed.

(** What [calculateSpeedKmH] does once both points exist. *)
Lemma calculateSpeedKmH_in_range (i : Z) (rd : list Waypoint) (p c : Waypoint) :
  (i <> 0)%Z -> (2 <= len rd)%Z ->
  lookup rd (i - 1) = Some p -> lookup rd i = Some c ->
  calculateSpeedKmH Date_getTime i rd =
  match timeDeltaMs Date_getTime p c with
  | None => "NaN"
  | Some ms =>
      if Rle_dec (timeDeltaHours ms) 0 then "N/A"
      else toFixed2 (distanceKm p c / timeDeltaHours ms)%R
  end.
Proof.
  intros Hi Hlen Hp Hc. unfold calculateSpeedKmH.
  destruct (Z.eqb_spec i 0) as [E | _]; [ contradiction | ].
  destruct (Z.leb_spec (len rd) 1) as [E | _]; [ lia | ].
  simpl. rewrite Hp, Hc. reflexivity.
Qed.

(** The integer part of a non-negative real is not negative. *)
Lemma Int_part_nonneg (r : R) : (0 <= r)%R -> (0 <= Int_part r)%Z.
Proof.
  intros Hr. unfold Int_part.
  destruct (archimed r) as [Hup _].
  assert (H : (0 < up r)%Z) by (apply lt_IZR; lra).
  lia.
Qed.

(** [toFixed2] of a non-negative number prints the integer [n] nearest
    to a hundred times the number (the larger one on a tie) as
    [n / 100], a point, and [n mod 100] on two digits. *)
Lemma toFixed2_nonneg (x : R) :
  (0 <= x)%R ->
  exists n : Z,
    (0 <= n)%Z /\
    (IZR n - / 2 <= x * 100 < IZR n + / 2)%R /\
    toFixed2 x =
    String_of_Z (n / 100) ++ "." ++ padStart 2 "0"%char (String_of_Z (n mod 100)).
Proof.
  intros Hx. exists (Int_part (x * 100 + / 2)).
  destruct (base_Int_part (x * 100 + / 2)) as [Hlo Hhi].
  repeat apply conj.
  - apply Int_part_nonneg. lra.
  - lra.
  - lra.
  - unfold toFixed2.
    destruct (Rlt_dec x 0) as [Hneg | _]; [ lra | ].
    rewrite (Rabs_pos_eq x Hx). reflexivity.
Qed.

(** C5. At an index [1 <= i <= len-1] of a route of at least two points,
    the speed is ["N/A"] exactly when both timestamps are dates and the
    time of the point at [i] minus the time of the point at [i-1] is zero
    or negative.  When that difference is positive, the hours divided by,
    the difference over 3 600 000, are not zero and the result is the
    haversine distance between the two points over these hours, fixed to
    two decimals: the nearest hundredth, printed with two digits after the
    point. *)
Theorem calculateSpeedKmH_sentinel_iff (i : Z) (rd : list Waypoint) :
  (2 <= len rd)%Z -> (1 <= i <= len rd - 1)%Z ->
  exists prevPoint currPoint,
    lookup rd (i - 1) = Some prevPoint /\
    lookup rd i = Some currPoint /\
    (calculateSpeedKmH Date_getTime i rd = "N/A" <->
     exists tp tc,
       Date_getTime (timestamp prevPoint) = Some tp /\
       Date_getTime (timestamp currPoint) = Some tc /\
       (tc - tp <= 0)%Z) /\
    (forall tp tc,
        Date_getTime (timestamp prevPoint) = Some tp ->
        Date_getTime (timestamp currPoint) = Some tc ->
        (0 < tc - tp)%Z ->
        let hours := (IZR (tc - tp) / (1000 * 60 * 60))%R in
        let speed :=
          (calculateDistanceKm (Q2R (lat prevPoint)) (Q2R (lng prevPoint))
                               (Q2R (lat currPoint)) (Q2R (lng currPoint))
           / hours)%R in
        hours <> 0%R /\
        calculateSpeedKmH Date_getTime i rd = toFixed2 speed /\
        exists n : Z,
          (0 <= n)%Z /\
          (IZR n - / 2 <= speed * 100 < IZR n + / 2)%R /\
          calculateSpeedKmH Date_getTime i rd =
          String_of_Z (n / 100) ++ "." ++
          padStart 2 "0"%char (String_of_Z (n mod 100))).
Proof.
  intros Hlen Hi.
  destruct (proj2 (lookup_Some_iff rd (i - 1))) as [p Hp]; [ lia | ].
  destruct (proj2 (lookup_Some_iff rd i)) as [c Hc]; [ lia | ].
  exists p, c. split; [ exact Hp | ]. split; [ exact Hc | ].
  rewrite (calculateSpeedKmH_in_range i rd p c) by (assumption || lia).
  unfold timeDeltaMs.
  destruct (Date_getTime (timestamp c)) as [tc | ];
    [ destruct (Date_getTime (timestamp p)) as [tp | ] | ].
  - destruct (Rle_dec (timeDeltaHours (tc - tp)) 0) as [Hle | Hgt].
    + split.
      * split; [ | reflexivity ].
        intros _. exists tp, tc. repeat split.
        apply timeDeltaHours_nonpos_iff. exact Hle.
      * intros tp' tc' Ep Ec Hpos.
        injection Ep as Ep. injection Ec as Ec. subst tp' tc'.
        apply timeDeltaHours_nonpos_iff in Hle. lia.
    + split.
      * split.
        -- intros E. exfalso. exact (toFixed2_not_sentinel _ E).
        -- intros (tp' & tc' & Ep & Ec & Hneg).
           injection Ep as Ep. injection Ec as Ec. subst tp' tc'.
           exfalso. apply Hgt. apply timeDeltaHours_nonpos_iff. exact Hneg.
      * intros tp' tc' Ep Ec Hpos.
        injection Ep as Ep. injection Ec as Ec. subst tp' tc'.
        cbv zeta. unfold distanceKm, timeDeltaHours in *.
        set (hours := (IZR (tc - tp) / (1000 * 60 * 60))%R) in *.
        set (speed :=
               (calculateDistanceKm (Q2R (lat p)) (Q2R (lng p))
                                    (Q2R (lat c)) (Q2R (lng c)) / hours)%R).
        assert (Hh : (0 < hours)%R) by (apply Rnot_le_lt; exact Hgt).
        assert (Hs : (0 <= speed)%R).
        { unfold speed, Rdiv. apply Rmult_le_pos.
          - apply distance_nonneg.
          - left. apply Rinv_0_lt_compat. exact Hh. }
        split; [ lra | ]. split; [ reflexivity | ].
        destruct (toFixed2_nonneg speed Hs) as (n & Hn & Hround & E).
        exists n. split; [ exact Hn | ]. split; [ exact Hround | exact E ].
  - split.
    + split; [ discriminate | ].
      intros (tp' & tc' & Ep & _). discriminate Ep.
    + intros tp' tc' Ep. discriminate Ep.
  - split.
    + split; [ discriminate | ].
      intros (tp' & tc' & _ & Ec & _). discriminate Ec.
    + intros tp' tc' _ Ec. discriminate Ec.
Qed.

(** C10. Whenever the point at [currentIndex] or the one before it is
    missing, [calculateSpeedKmH] answers ["0.00"]. *)
Theorem calculateSpeedKmH_missing_point (currentIndex : Z) (rd : list Waypoint) :
  lookup rd currentIndex = None \/ lookup rd (currentIndex - 1) = None ->
  calculateSpeedKmH Date_getTime currentIndex rd = "0.00".
Proof.
  intros H. unfold calculateSpeedKmH.
  destruct ((currentIndex =? 0)%Z || (len rd <=? 1)%Z); [ reflexivity | ].
  destruct H as [H | H]; rewrite H.
  - destruct (lookup rd (currentIndex - 1)); reflexivity.
  - reflexivity.
Qed.

(** Said with index ranges: at or below 0 and at or beyond the length the
    answer is ["0.00"]. *)
Lemma calculateSpeedKmH_out_of_range (currentIndex : Z) (rd : list Waypoint) :
  (currentIndex <= 0 \/ len rd <= currentIndex)%Z ->
  calculateSpeedKmH Date_getTime currentIndex rd = "0.00".
Proof.
  intros H. unfold calculateSpeedKmH.
  destruct (Z.eqb_spec currentIndex 0) as [E | Hne]; [ reflexivity | ].
  destruct (Z.leb_spec (len rd) 1) as [L | L]; [ reflexivity | ]. simpl.
  assert (E : lookup rd currentIndex = None) by (apply lookup_None_iff; lia).
  rewrite E. destruct (lookup rd (currentIndex - 1)); reflexivity.
Qed.

End SpeedFacts.

Section ElapsedFacts.

Import Kinematics.
Local Open Scope string_scope.

Variable Date_getTime : option string -> option Z.

Lemma string_length_app (s t : string) :
  String.length (s ++ t) = (String.length s + String.length t)%nat.
Proof.
  induction s as [ | c s IH]; simpl; [ reflexivity | rewrite IH; reflexivity ].
Qed.

Lemma string_length_repeat (c : ascii) (n : nat) :
  String.length (string_of_list_ascii (repeat c n)) = n.
Proof.
  induction n as [ | n IH]; simpl; [ reflexivity | rewrite IH; reflexivity ].
Qed.

(** [padStart] never shortens and fills up to the target length. *)
Lemma padStart_length (n : nat) (c : ascii) (s : string) :
  String.length (padStart n c s) = Nat.max n (String.length s).
Proof.
  unfold padStart. rewrite string_length_app, string_length_repeat. lia.
Qed.

(** A number of seconds below sixty prints as exactly two digits. *)
Lemma padStart_seconds (r : Z) :
  (0 <= r < 60)%Z -> padStart 2 "0"%char (String_of_Z r) = twoDigits r.
Proof.
  intros Hr.
  assert (E : r = Z.of_nat (Z.to_nat r)) by lia.
  assert (Hn : (Z.to_nat r < 60)%nat) by lia.
  rewrite E. generalize dependent (Z.to_nat r). clear.
  intros n _ Hn.
  do 60 (destruct n as [ | n]; [ reflexivity | ]).
  lia.
Qed.

(** C7. [formatElapsedTime] is ["00:00"] whenever a timestamp is absent;
    for two timestamps that are instants, the current one not before the
    start, it is the whole minutes, padded to at least two characters and
    never capped, a colon, and the remaining seconds as two digits: one
    hour, fifteen minutes and three seconds give ["75:03"]. *)
Theorem formatElapsedTime_label :
  (forall startTime currentTime,
      falsy startTime = true \/ falsy currentTime = true ->
      formatElapsedTime Date_getTime startTime currentTime = "00:00") /\
  (forall startTime currentTime s c,
      falsy startTime = false -> falsy currentTime = false ->
      Date_getTime startTime = Some s -> Date_getTime currentTime = Some c ->
      (s <= c)%Z ->
      let seconds := ((c - s) / 1000)%Z in
      let minutes := (seconds / 60)%Z in
      formatElapsedTime Date_getTime startTime currentTime =
        padStart 2 "0"%char (String_of_Z minutes) ++ ":" ++
        twoDigits (seconds mod 60) /\
      (0 <= seconds mod 60 < 60)%Z /\
      (seconds = minutes * 60 + seconds mod 60)%Z /\
      (2 <= String.length (padStart 2 "0"%char (String_of_Z minutes)))%nat) /\
  (forall startTime currentTime s c,
      falsy startTime = false -> falsy currentTime = false ->
      Date_getTime startTime = Some s -> Date_getTime currentTime = Some c ->
      (c - s = (75 * 60 + 3) * 1000)%Z ->
      formatElapsedTime Date_getTime startTime currentTime = "75:03").
Proof.
  repeat apply conj.
  - intros startTime currentTime H. unfold formatElapsedTime.
    destruct H as [H | H]; rewrite H;
      [ reflexivity | rewrite orb_true_r; reflexivity ].
  - intros startTime currentTime s c Hs Hc Es Ec Hle seconds minutes.
    assert (Hsec : (0 <= seconds)%Z) by (apply Z.div_pos; lia).
    assert (Hrem : (0 <= seconds mod 60 < 60)%Z) by (apply Z.mod_pos_bound; lia).
    repeat apply conj.
    + unfold formatElapsedTime. rewrite Hs, Hc, Es, Ec. cbv zeta. simpl orb. cbv iota.
      fold seconds. fold minutes.
      rewrite Z.rem_mod_nonneg by lia.
      rewrite (padStart_seconds (seconds mod 60) Hrem).
      reflexivity.
    + apply Hrem.
    + apply Hrem.
    + unfold minutes. pose proof (Z.div_mod seconds 60). lia.
    + rewrite padStart_length. lia.
  - intros startTime currentTime s c Hs Hc Es Ec Hd.
    unfold formatElapsedTime. rewrite Hs, Hc, Es, Ec, Hd. reflexivity.
Qed.

End ElapsedFacts.

Lemma formatElapsedTime_label_witness :
  Kinematics.formatElapsedTime Kinematics.exampleDate
    None (Some "2024-07-20T10:00:05Z"%string) = "00:00"%string /\
  Kinematics.formatElapsedTime Kinematics.exampleDate
    (Some "2024-07-20T10:00:00Z"%string) (Some "2024-07-20T10:00:05Z"%string)
  = "00:05"%string /\
  Kinematics.formatElapsedTime Kinematics.exampleDate
    (Some "2024-07-20T10:00:00Z"%string) (Some "2024-07-20T11:15:03Z"%string)
  = "75:03"%string.
Proof.
  destruct (formatElapsedTime_label Kinematics.exampleDate) as (Habsent & Hfmt & Hlong).
  repeat apply conj.
  - apply Habsent. left. reflexivity.
  - destruct (Hfmt (Some "2024-07-20T10:00:00Z"%string)
                (Some "2024-07-20T10:00:05Z"%string)
                1721469600000%Z 1721469605000%Z) as [E _];
      [ reflexivity | reflexivity | reflexivity | reflexivity | lia | ].
    rewrite E. reflexivity.
  - apply (Hlong (Some "2024-07-20T10:00:00Z"%string)
                 (Some "2024-07-20T11:15:03Z"%string)
                 1721469600000%Z 1721474103000%Z);
      [ reflexivity | reflexivity | reflexivity | reflexivity | lia ].
Defined.

Lemma calculateSpeedKmH_sentinel_iff_witness :
  exists prevPoint currPoint,
    lookup Kinematics.exampleRoute (1 - 1) = Some prevPoint /\
    lookup Kinematics.exampleRoute 1 = Some currPoint /\
    (Kinematics.calculateSpeedKmH Kinematics.exampleDate 1 Kinematics.exampleRoute
       = "N/A"%string <->
     exists tp tc,
       Kinematics.exampleDate (timestamp prevPoint) = Some tp /\
       Kinematics.exampleDate (timestamp currPoint) = Some tc /\
       (tc - tp <= 0)%Z) /\
    (forall tp tc,
        Kinematics.exampleDate (timestamp prevPoint) = Some tp ->
        Kinematics.exampleDate (timestamp currPoint) = Some tc ->
        (0 < tc - tp)%Z ->
        let hours := (IZR (tc - tp) / (1000 * 60 * 60))%R in
        let speed :=
          (Kinematics.calculateDistanceKm
             (Q2R (lat prevPoint)) (Q2R (lng prevPoint))
             (Q2R (lat currPoint)) (Q2R (lng currPoint))
           / hours)%R in
        hours <> 0%R /\
        Kinematics.calculateSpeedKmH Kinematics.exampleDate 1 Kinematics.exampleRoute
          = Kinematics.toFixed2 speed /\
        exists n : Z,
          (0 <= n)%Z /\
          (IZR n - / 2 <= speed * 100 < IZR n + / 2)%R /\
          Kinematics.calculateSpeedKmH Kinematics.exampleDate 1 Kinematics.exampleRoute
          = (Kinematics.String_of_Z (n / 100) ++ "." ++
             Kinematics.padStart 2 "0"%char (Kinematics.String_of_Z (n mod 100)))%string).
Proof.
  apply (calculateSpeedKmH_sentinel_iff Kinematics.exampleDate 1 Kinematics.exampleRoute).
  - unfold len. simpl. lia.
  - unfold len. simpl. lia.
Defined.

Lemma calculateSpeedKmH_missing_point_witness :
  Kinematics.calculateSpeedKmH Kinematics.exampleDate 3 Kinematics.exampleRoute
  = "0.00"%string.
Proof.
  apply (calculateSpeedKmH_missing_point Kinematics.exampleDate 3 Kinematics.exampleRoute).
  left. reflexivity.
Defined.

(** Outside the domain of C7: a current timestamp before the start, or
    one that is not a date, does not give a padded label. *)
Example formatElapsedTime_backwards :
  Kinematics.formatElapsedTime Kinematics.exampleDate
    (Some "2024-07-20T10:00:05Z"%string) (Some "2024-07-20T10:00:00Z"%string)
  = "-1:-5"%string.
Proof. reflexivity. Qed.

Example formatElapsedTime_invalid_date :
  Kinematics.formatElapsedTime Kinematics.exampleDate
    (Some "2024-07-20T10:00:00Z"%string) (Some "soon"%string)
  = "NaN:NaN"%string.
Proof. reflexivity. Qed.

(** A padded field of minutes never starts with a minus sign. *)
Lemma padStart_minutes_head (m : Z) :
  (0 <= m)%Z ->
  exists c s,
    Kinematics.padStart 2 "0"%char (Kinematics.String_of_Z m) = String c s /\
    c <> "-"%char.
Proof.
  intros Hm.
  destruct (String_of_Z_unsigned m Hm) as (c & s & E & Hc).
  unfold Kinematics.padStart. rewrite E.
  destruct s as [ | c' s']; simpl.
  - eexists; eexists; (split; [ reflexivity | discriminate ]).
  - eexists; eexists; (split; [ reflexivity | exact Hc ]).
Qed.

(** C7 as the specification words it fails.  Both timestamps are
    present, yet with the current one five seconds before the start the
    label is ["-1:-5"], which is no padded minutes-and-seconds label
    whatever the minutes and seconds; and with a current timestamp that is
    not a date the label is ["NaN:NaN"]. *)
Lemma formatElapsedTime_not_padded :
  let start := Some "2024-07-20T10:00:05Z"%string in
  let current := Some "2024-07-20T10:00:00Z"%string in
  Kinematics.falsy start = false /\
  Kinematics.falsy current = false /\
  Kinematics.formatElapsedTime Kinematics.exampleDate start current
    = "-1:-5"%string /\
  (forall m r : Z,
      (0 <= m)%Z -> (0 <= r < 60)%Z ->
      Kinematics.formatElapsedTime Kinematics.exampleDate start current <>
      (Kinematics.padStart 2 "0"%char (Kinematics.String_of_Z m) ++ ":" ++
       Kinematics.twoDigits r)%string) /\
  Kinematics.falsy (Some "soon"%string) = false /\
  Kinematics.formatElapsedTime Kinematics.exampleDate start (Some "soon"%string)
    = "NaN:NaN"%string.
Proof.
  intros start current. repeat apply conj; try reflexivity.
  intros m r Hm Hr.
  change (Kinematics.formatElapsedTime Kinematics.exampleDate start current)
    with "-1:-5"%string.
  destruct (padStart_minutes_head m Hm) as (c & s & E & Hc).
  rewrite E. simpl. intros H. injection H as H _. apply Hc. symmetry. exact H.
Qed.

(** ** Playback controller *)

Section PlaybackFacts.

Import Playback.
Local Open Scope Z_scope.

Lemma len_nil_iff {A : Type} (l : list A) : len l = 0 <-> l = [].
Proof.
  unfold len. destruct l; simpl; split; intros H;
    try reflexivity; try discriminate H; lia.
Qed.

Lemma len_pos {A : Type} (l : list A) : l <> [] -> 1 <= len l.
Proof.
  unfold len. destruct l; simpl; [ congruence | lia ].
Qed.

(** The effect touches the ticker only. *)
Lemma effectCleanup_data (s : AppState) :
  routeData (effectCleanup s) = routeData s /\
  currentIndex (effectCleanup s) = currentIndex s /\
  isPlaying (effectCleanup s) = isPlaying s /\
  isLoading (effectCleanup s) = isLoading s.
Proof.
  unfold effectCleanup. destruct (intervalRef s); simpl; auto.
Qed.

Lemma effectBody_data (s : AppState) :
  routeData (effectBody s) = routeData s /\
  currentIndex (effectBody s) = currentIndex s /\
  isPlaying (effectBody s) = isPlaying s /\
  isLoading (effectBody s) = isLoading s.
Proof.
  unfold effectBody.
  destruct (isPlaying s && (len (routeData s) >? 0)
            && (currentIndex s <? len (routeData s) - 1)); simpl; auto.
Qed.

Lemma rerender_data (b : bool) (old new : AppState) :
  routeData (rerender b old new) = routeData new /\
  currentIndex (rerender b old new) = currentIndex new /\
  isPlaying (rerender b old new) = isPlaying new /\
  isLoading (rerender b old new) = isLoading new.
Proof.
  unfold rerender. destruct (depsChanged b old new); [ | auto ].
  destruct (effectBody_data (effectCleanup new)) as (E1 & E2 & E3 & E4).
  destruct (effectCleanup_data new) as (F1 & F2 & F3 & F4).
  rewrite E1, E2, E3, E4. auto.
Qed.

Lemma dataInv_ext (s s' : AppState) :
  routeData s' = routeData s -> currentIndex s' = currentIndex s ->
  isPlaying s' = isPlaying s -> isLoading s' = isLoading s ->
  dataInv s -> dataInv s'.
Proof.
  unfold dataInv. intros E1 E2 E3 E4. rewrite E1, E2, E3, E4. auto.
Qed.

(** The cleanup clears every interval the ref names. *)
Lemma effectCleanup_timers (s : AppState) :
  (forall t, In t (timers s) -> intervalRef s = Some (timerId t)) ->
  timers (effectCleanup s) = [].
Proof.
  intros H. unfold effectCleanup.
  destruct (intervalRef s) as [id | ] eqn:E.
  - simpl. apply (proj2 (List.Forall_forall _ _)) in H.
    induction (timers s) as [ | t ts IH]; simpl; [ reflexivity | ].
    inversion H as [ | t' ts' Ht Hts ]; subst.
    injection Ht as Ht. subst id. rewrite Nat.eqb_refl. simpl.
    apply IH. exact Hts.
  - destruct (timers s) as [ | t ts]; [ reflexivity | ].
    specialize (H t (or_introl eq_refl)). discriminate H.
Qed.

(** Running cleanup and body re-establishes the ticker invariant. *)
Lemma effect_rerun_Inv (s : AppState) :
  dataInv s ->
  (forall t, In t (timers s) -> intervalRef s = Some (timerId t)) ->
  Inv (effectBody (effectCleanup s)).
Proof.
  intros Hd Ht.
  pose proof (effectCleanup_timers s Ht) as Hts.
  destruct (effectCleanup_data s) as (F1 & F2 & F3 & F4).
  split.
  - destruct (effectBody_data (effectCleanup s)) as (E1 & E2 & E3 & E4).
    apply (dataInv_ext s); congruence.
  - unfold effectBody.
    destruct (isPlaying (effectCleanup s) && (len (routeData (effectCleanup s)) >? 0)
              && (currentIndex (effectCleanup s) <? len (routeData (effectCleanup s)) - 1))
      eqn:G.
    + apply andb_prop in G. destruct G as [G G3].
      apply andb_prop in G. destruct G as [G1 G2].
      unfold timerInv, setIntervalRef. simpl. rewrite Hts. simpl.
      refine (conj _ (conj _ _)).
      * intros t [E | []]. subst t. simpl. auto.
      * intros _. split; [ exact G1 | apply Z.ltb_lt; exact G3 ].
      * lia.
    + unfold timerInv. rewrite Hts. refine (conj _ (conj _ _)).
      * intros t [].
      * intros H. contradiction H. reflexivity.
      * simpl. lia.
Qed.

Lemma rerender_Inv (b : bool) (old new : AppState) :
  Inv old -> dataInv new ->
  timers new = timers old -> intervalRef new = intervalRef old ->
  (depsChanged b old new = false -> new = old) ->
  Inv (rerender b old new).
Proof.
  intros Hold Hd Et Ei Hsame. unfold rerender.
  destruct (depsChanged b old new) eqn:D.
  - apply effect_rerun_Inv; [ exact Hd | ].
    rewrite Et, Ei. intros t Hin.
    destruct Hold as [_ [Ht _]]. apply (Ht t Hin).
  - rewrite (Hsame eq_refl). exact Hold.
Qed.

(** When neither [isPlaying] nor [currentIndex] changed, a setter left
    the state as it was. *)
Lemma unchanged_state (old new : AppState) :
  routeData new = routeData old -> isLoading new = isLoading old ->
  intervalRef new = intervalRef old -> timers new = timers old ->
  nextTimerId new = nextTimerId old ->
  depsChanged false old new = false -> new = old.
Proof.
  intros E1 E2 E3 E4 E5 D. unfold depsChanged in D. simpl in D.
  apply orb_false_elim in D. destruct D as [D1 D2].
  apply negb_false_iff in D1. apply negb_false_iff in D2.
  apply Bool.eqb_prop in D1. apply Z.eqb_eq in D2.
  destruct old, new. simpl in *. congruence.
Qed.

(** Splits a goal [dataInv s] into its four parts. *)
Ltac split_dataInv := unfold dataInv; simpl; refine (conj _ (conj _ (conj _ _))).

Lemma Inv_initial : Inv initial.
Proof.
  unfold Inv, dataInv, timerInv, initial. simpl.
  repeat split; try reflexivity; try lia; try contradiction.
Qed.

Lemma Inv_load (rd : list Waypoint) (s : AppState) : Inv s -> Inv (load rd s).
Proof.
  intros H. unfold load. destruct (isLoading s) eqn:L; [ | exact H ].
  destruct H as [Hd Ht]. pose proof Hd as (D1 & D2 & D3 & D4).
  specialize (D1 L). destruct (D2 D1) as [I0 P0].
  apply rerender_Inv; try reflexivity.
  - split; [ exact Hd | exact Ht ].
  - split_dataInv.
    + discriminate.
    + intros _. split; [ exact I0 | exact P0 ].
    + lia.
    + intros Hne. pose proof (len_pos rd Hne). lia.
  - intros D. discriminate D.
Qed.

Lemma Inv_loadFailed (s : AppState) : Inv s -> Inv (loadFailed s).
Proof.
  intros H. unfold loadFailed. destruct (isLoading s) eqn:L; [ | exact H ].
  destruct H as [(D1 & D2 & D3 & D4) Ht]. split.
  - split_dataInv; auto; discriminate.
  - exact Ht.
Qed.

Lemma controlsEnabled_true (s : AppState) :
  controlsEnabled s = true -> isLoading s = false /\ routeData s <> [].
Proof.
  unfold controlsEnabled. intros H. apply andb_prop in H. destruct H as [H1 H2].
  apply negb_true_iff in H1. apply negb_true_iff in H2.
  split; [ exact H1 | ].
  intros E. apply Z.eqb_neq in H2. apply H2. apply len_nil_iff. exact E.
Qed.

Lemma Inv_play (s : AppState) : Inv s -> Inv (play s).
Proof.
  intros H. unfold play. destruct (controlsEnabled s) eqn:C; [ | exact H ].
  destruct (controlsEnabled_true s C) as [L Hne].
  pose proof H as [(D1 & D2 & D3 & D4) Ht].
  apply rerender_Inv.
  - exact H.
  - unfold togglePlay. destruct (Z.geb_spec (currentIndex s) (len (routeData s) - 1)).
    + split_dataInv.
      * exact D1.
      * intros E. contradiction.
      * lia.
      * intros _. pose proof (len_pos _ Hne). lia.
    + split_dataInv; auto; intros E; contradiction.
  - unfold togglePlay. destruct (currentIndex s >=? len (routeData s) - 1); reflexivity.
  - unfold togglePlay. destruct (currentIndex s >=? len (routeData s) - 1); reflexivity.
  - apply unchanged_state;
      unfold togglePlay; destruct (currentIndex s >=? len (routeData s) - 1); reflexivity.
Qed.

Lemma Inv_reset (s : AppState) : Inv s -> Inv (reset s).
Proof.
  intros H. unfold reset. destruct (controlsEnabled s) eqn:C; [ | exact H ].
  destruct (controlsEnabled_true s C) as [L Hne].
  pose proof H as [(D1 & D2 & D3 & D4) Ht].
  apply rerender_Inv; try reflexivity.
  - exact H.
  - unfold resetSimulation. split_dataInv.
    + exact D1.
    + intros _. split; reflexivity.
    + lia.
    + intros _. pose proof (len_pos _ Hne). lia.
  - apply unchanged_state; reflexivity.
Qed.

Lemma Inv_tick (s : AppState) : Inv s -> Inv (tick s).
Proof.
  intros H. unfold tick. destruct (timers s) as [ | t ts] eqn:T; [ exact H | ].
  pose proof H as [(D1 & D2 & D3 & D4) (T1 & T2 & _)].
  destruct (T1 t) as [Ec _]; [ rewrite T; left; reflexivity | ].
  destruct T2 as [P Hlt]; [ rewrite T; discriminate | ].
  assert (Hne : routeData s <> []).
  { intros E. rewrite E in Hlt. unfold len in Hlt. simpl in Hlt. lia. }
  rewrite Ec. unfold intervalCallback.
  destruct (Z.geb_spec (currentIndex s) (len (routeData s) - 1)) as [G | G];
    [ lia | ].
  apply rerender_Inv; try reflexivity.
  - exact H.
  - split_dataInv.
    + exact D1.
    + intros E. contradiction.
    + lia.
    + intros _. lia.
  - intros D. unfold depsChanged in D. simpl in D.
    apply orb_false_elim in D. destruct D as [_ D].
    apply negb_false_iff in D. apply Z.eqb_eq in D. lia.
Qed.

Lemma Inv_step (e : Event) (s : AppState) : Inv s -> Inv (step e s).
Proof.
  destruct e; simpl.
  - apply Inv_load.
  - apply Inv_loadFailed.
  - apply Inv_play.
  - apply Inv_reset.
  - apply Inv_tick.
Qed.

Lemma reachable_Inv (s : AppState) : reachable s -> Inv s.
Proof.
  induction 1 as [ | e s _ IH]; [ exact Inv_initial | exact (Inv_step e s IH) ].
Qed.

End PlaybackFacts.

Section PlaybackClaims.

Import Playback.
Local Open Scope Z_scope.

Lemma reachable_run (es : list Event) (s : AppState) :
  reachable s -> reachable (run es s).
Proof.
  revert s. induction es as [ | e es IH]; intros s H; simpl.
  - exact H.
  - apply IH. apply reachable_step. exact H.
Qed.

Lemma reachable_loaded (s : AppState) :
  reachable s -> routeData s <> [] -> controlsEnabled s = true.
Proof.
  intros Hr Hne. destruct (reachable_Inv s Hr) as [(D1 & _) _].
  unfold controlsEnabled.
  destruct (isLoading s); [ contradiction Hne; apply D1; reflexivity | ].
  destruct (Z.eqb_spec (len (routeData s)) 0) as [E | _]; [ | reflexivity ].
  apply len_nil_iff in E. contradiction.
Qed.

(** The ticker's discipline: never two intervals at once, and one only
    while playing before the last index. *)
Lemma ticker_discipline (s : AppState) :
  reachable s ->
  (List.length (timers s) <= 1)%nat /\
  (timers s <> [] ->
   isPlaying s = true /\ currentIndex s < len (routeData s) - 1).
Proof.
  intros Hr. destruct (reachable_Inv s Hr) as [_ (_ & T2 & T3)].
  split; [ exact T3 | exact T2 ].
Qed.

(** One firing of the ticker moves the index by at most one step
    forward. *)
Lemma tick_index (s : AppState) :
  currentIndex (tick s) = currentIndex s \/
  currentIndex (tick s) = currentIndex s + 1.
Proof.
  unfold tick. destruct (timers s) as [ | t ts]; [ left; reflexivity | ].
  destruct (rerender_data false s (intervalCallback (captured t) s)) as (_ & E & _).
  rewrite E. unfold intervalCallback.
  destruct (currentIndex s >=? len (captured t) - 1); simpl; auto.
Qed.

(** C4. In every reachable state with a non-empty route [currentIndex]
    is a position of the route; every event keeps it one; a tick never
    moves it backwards or past the last index, and at the last index both
    the ticker and its bare callback leave it where it is. *)
Theorem currentIndex_always_valid (s : AppState) :
  reachable s -> routeData s <> [] ->
  0 <= currentIndex s <= len (routeData s) - 1 /\
  (forall e, routeData (step e s) <> [] ->
             0 <= currentIndex (step e s) <= len (routeData (step e s)) - 1) /\
  currentIndex s <= currentIndex (tick s) <= len (routeData s) - 1 /\
  (currentIndex s = len (routeData s) - 1 ->
   currentIndex (tick s) = len (routeData s) - 1 /\
   currentIndex (intervalCallback (routeData s) s) = len (routeData s) - 1).
Proof.
  intros Hr Hne.
  assert (Hvalid : forall s', reachable s' -> routeData s' <> [] ->
                              0 <= currentIndex s' <= len (routeData s') - 1).
  { intros s' Hr' Hne'. destruct (reachable_Inv s' Hr') as [(_ & _ & D3 & D4) _].
    split; [ exact D3 | exact (D4 Hne') ]. }
  assert (Htick : routeData (tick s) = routeData s).
  { unfold tick. destruct (timers s) as [ | t ts]; [ reflexivity | ].
    destruct (rerender_data false s (intervalCallback (captured t) s)) as (E & _).
    rewrite E. unfold intervalCallback.
    destruct (currentIndex s >=? len (captured t) - 1); reflexivity. }
  pose proof (Hvalid (tick s) (reachable_step IntervalFires s Hr)) as Ht.
  rewrite Htick in Ht. specialize (Ht Hne).
  pose proof (tick_index s) as Hmove.
  repeat apply conj.
  - apply (Hvalid s Hr Hne).
  - apply (Hvalid s Hr Hne).
  - intros e He. apply Hvalid; [ apply reachable_step; exact Hr | exact He ].
  - lia.
  - lia.
  - intros Elast. split.
    + lia.
    + unfold intervalCallback.
      destruct (Z.geb_spec (currentIndex s) (len (routeData s) - 1)) as [_ | G];
        [ simpl; exact Elast | lia ].
Qed.

Lemma currentIndex_always_valid_witness :
  let s := run [RouteLoaded Kinematics.exampleRoute; ClickPlay; IntervalFires; IntervalFires] initial in
  0 <= currentIndex s <= len (routeData s) - 1 /\
  (forall e, routeData (step e s) <> [] ->
             0 <= currentIndex (step e s) <= len (routeData (step e s)) - 1) /\
  currentIndex s <= currentIndex (tick s) <= len (routeData s) - 1 /\
  (currentIndex s = len (routeData s) - 1 ->
   currentIndex (tick s) = len (routeData s) - 1 /\
   currentIndex (intervalCallback (routeData s) s) = len (routeData s) - 1).
Proof.
  apply (currentIndex_always_valid
           (run [RouteLoaded Kinematics.exampleRoute; ClickPlay; IntervalFires; IntervalFires] initial)).
  - apply reachable_run. apply reachable_initial.
  - simpl. discriminate.
Defined.

(** C3. With an empty route the play and reset commands change nothing:
    the state stays as it was, not playing and at index 0. *)
Theorem empty_route_commands_are_noops (s : AppState) :
  reachable s -> routeData s = [] ->
  play s = s /\ reset s = s /\
  isPlaying (play s) = false /\ currentIndex (play s) = 0 /\
  isPlaying (reset s) = false /\ currentIndex (reset s) = 0.
Proof.
  intros Hr He.
  destruct (reachable_Inv s Hr) as [(_ & D2 & _) _].
  destruct (D2 He) as [I0 P0].
  assert (C : controlsEnabled s = false).
  { unfold controlsEnabled. rewrite He. simpl. apply andb_false_r. }
  unfold play, reset. rewrite C.
  repeat apply conj; (reflexivity || assumption).
Qed.

Lemma empty_route_commands_are_noops_witness :
  let s := step (RouteLoaded []) initial in
  play s = s /\ reset s = s /\
  isPlaying (play s) = false /\ currentIndex (play s) = 0 /\
  isPlaying (reset s) = false /\ currentIndex (reset s) = 0.
Proof.
  apply (empty_route_commands_are_noops (step (RouteLoaded []) initial)).
  - apply reachable_step. apply reachable_initial.
  - reflexivity.
Defined.

(** The handler behind the first button is not itself guarded: called on
    an empty route it would start playing.  Only the [disabled] attribute
    keeps it from being called. *)
Example togglePlay_on_empty_route :
  isPlaying (togglePlay (step (RouteLoaded []) initial)) = true.
Proof. reflexivity. Qed.

(** C6. At the last index of a non-empty route the play command
    restarts: [currentIndex] becomes 0 and [isPlaying] true. *)
Theorem play_at_last_index_restarts (s : AppState) :
  reachable s -> routeData s <> [] ->
  currentIndex s = len (routeData s) - 1 ->
  currentIndex (play s) = 0 /\ isPlaying (play s) = true.
Proof.
  intros Hr Hne Elast. unfold play.
  rewrite (reachable_loaded s Hr Hne).
  destruct (rerender_data false s (togglePlay s)) as (_ & E2 & E3 & _).
  rewrite E2, E3. unfold togglePlay.
  destruct (Z.geb_spec (currentIndex s) (len (routeData s) - 1)) as [_ | G];
    [ simpl; auto | lia ].
Qed.

Lemma play_at_last_index_restarts_witness :
  let s := run [RouteLoaded Kinematics.exampleRoute; ClickPlay; IntervalFires; IntervalFires] initial in
  currentIndex (play s) = 0 /\ isPlaying (play s) = true.
Proof.
  apply (play_at_last_index_restarts
           (run [RouteLoaded Kinematics.exampleRoute; ClickPlay; IntervalFires; IntervalFires] initial)).
  - apply reachable_run. apply reachable_initial.
  - simpl. discriminate.
  - reflexivity.
Defined.

End PlaybackClaims.

Section PlayToEnd.

Import Playback.
Local Open Scope Z_scope.

Lemma load_initial (rd : list Waypoint) :
  load rd initial = mkApp rd 0 false false None [] 1.
Proof. reflexivity. Qed.

(** Pressing play on a freshly loaded route starts playback at index 0. *)
Lemma play_loaded (rd : list Waypoint) :
  rd <> [] -> playingAt rd 0 (play (load rd initial)).
Proof.
  intros Hne. rewrite load_initial.
  pose proof (len_pos rd Hne) as Hlen.
  unfold play, controlsEnabled. simpl.
  destruct (Z.eqb_spec (len rd) 0) as [E | _]; [ lia | ]. simpl.
  unfold togglePlay. simpl.
  destruct (Z.geb_spec 0 (len rd - 1)) as [G | G].
  - (* a single point: the restart branch *)
    unfold rerender, depsChanged, effectCleanup, effectBody. simpl.
    destruct (Z.ltb_spec 0 (len rd - 1)) as [L | L]; [ lia | ].
    rewrite andb_false_r. unfold playingAt. simpl.
    destruct (Z.ltb_spec 0 (len rd - 1)) as [L' | _]; [ lia | ].
    repeat apply conj; try reflexivity. intros t [].
  - unfold rerender, depsChanged, effectCleanup, effectBody. simpl.
    destruct (Z.gtb_spec (len rd) 0) as [_ | L]; [ | lia ].
    destruct (Z.ltb_spec 0 (len rd - 1)) as [_ | L]; [ | lia ].
    simpl. unfold playingAt, setIntervalRef. simpl.
    destruct (Z.ltb_spec 0 (len rd - 1)) as [_ | L]; [ | lia ].
    repeat apply conj; try reflexivity.
    + intros t [E | []]. subst t. reflexivity.
    + exists 1%nat. reflexivity.
Qed.

(** While playing before the last index, a tick advances by one and arms
    the ticker again unless the last index was reached. *)
Lemma playingAt_tick (rd : list Waypoint) (k : Z) (s : AppState) :
  0 <= k -> k < len rd - 1 ->
  playingAt rd k s -> playingAt rd (k + 1) (tick s).
Proof.
  intros H0 Hlt (Erd & Ek & Ep & El & Href & Ht).
  destruct (Z.ltb_spec k (len rd - 1)) as [_ | L]; [ | lia ].
  destruct Ht as [id Ht].
  assert (Eref : intervalRef s = Some id)
    by (apply (Href (mkTimer id rd)); rewrite Ht; left; reflexivity).
  destruct s as [rd' idx pl ld ir ts nx]. simpl in *. subst.
  unfold tick, intervalCallback. simpl.
  destruct (Z.geb_spec k (len rd - 1)) as [G | _]; [ lia | ].
  unfold rerender, depsChanged. simpl.
  destruct (Z.eqb_spec k (k + 1)) as [E | _]; [ lia | ]. simpl.
  unfold effectCleanup, clearInterval. simpl. rewrite Nat.eqb_refl. simpl.
  unfold effectBody. simpl.
  destruct (Z.gtb_spec (len rd) 0) as [_ | L]; [ | lia ]. simpl.
  unfold playingAt.
  destruct (Z.ltb_spec (k + 1) (len rd - 1)) as [L | L]; simpl.
  - repeat apply conj; try reflexivity.
    + intros t [E | []]. subst t. reflexivity.
    + exists nx. reflexivity.
  - repeat apply conj; try reflexivity. intros t [].
Qed.

Lemma playingAt_ticks (rd : list Waypoint) (n : nat) :
  forall (k : Z) (s : AppState),
    0 <= k -> k + Z.of_nat n <= len rd - 1 ->
    playingAt rd k s ->
    playingAt rd (k + Z.of_nat n) (run (repeat IntervalFires n) s).
Proof.
  induction n as [ | n IH]; intros k s H0 Hle Hp.
  - simpl. rewrite Z.add_0_r. exact Hp.
  - simpl repeat. unfold run. simpl fold_left. fold (run (repeat IntervalFires n) (tick s)).
    replace (k + Z.of_nat (S n)) with ((k + 1) + Z.of_nat n) by lia.
    apply IH; [ lia | lia | ].
    apply playingAt_tick; [ exact H0 | lia | exact Hp ].
Qed.

(** What the code does on the scenario of C1, for every non-empty route:
    play and then [len-1] ticks end at the last index with the ticker
    gone, so that a further tick changes nothing; but [isPlaying] is
    still true and the button still reads "Pause".  The only place that
    sets it to false is the callback's branch for a tick at the last
    index, which no live interval is left to run. *)
Lemma play_then_ticks (rd : list Waypoint) :
  rd <> [] ->
  let s := run (repeat IntervalFires (Z.to_nat (len rd - 1))) (play (load rd initial)) in
  currentIndex s = len rd - 1 /\
  timers s = [] /\
  tick s = s /\
  isPlaying s = true /\
  controlLabel s = LabelPause /\
  isPlaying (intervalCallback rd s) = false.
Proof.
  intros Hne s. pose proof (len_pos rd Hne) as Hlen.
  assert (Hp : playingAt rd (0 + Z.of_nat (Z.to_nat (len rd - 1))) s).
  { apply playingAt_ticks; [ lia | lia | apply play_loaded; exact Hne ]. }
  replace (0 + Z.of_nat (Z.to_nat (len rd - 1))) with (len rd - 1) in Hp by lia.
  destruct Hp as (Erd & Ek & Ep & El & Href & Ht).
  rewrite Z.ltb_irrefl in Ht.
  repeat apply conj.
  - exact Ek.
  - exact Ht.
  - unfold tick. rewrite Ht. reflexivity.
  - exact Ep.
  - unfold controlLabel. rewrite Ep. reflexivity.
  - unfold intervalCallback. rewrite Ek.
    destruct (Z.geb_spec (len rd - 1) (len rd - 1)) as [_ | G]; [ reflexivity | lia ].
Qed.

(** C1, evaluated.  On the three-point example route, play followed by
    two ticks reaches index 2 with no interval left, and a further tick
    is a no-op; yet the state is still "playing", not completed. *)
Theorem play_to_end_still_playing :
  let s := run [RouteLoaded Kinematics.exampleRoute; ClickPlay; IntervalFires; IntervalFires] initial in
  len (routeData s) = 3 /\
  currentIndex s = 2 /\
  timers s = [] /\
  tick s = s /\
  isPlaying s = true /\
  controlLabel s = LabelPause /\
  controlLabel (intervalCallback (routeData s) s) = LabelReplay.
Proof.
  repeat apply conj; reflexivity.
Qed.

End PlayToEnd.

(** ** Interpolation animator *)

Section AnimatorFacts.

Import Animator.

(** What one call of [animate] does to each part of the state. *)
Lemma animate_frames (l : Loop) (t : Q) (s : AnimState) :
  frames (animate l t s) = frames s ++ (if unfinished l t then [l] else []).
Proof.
  unfold animate. destruct (unfinished l t); simpl;
    [ reflexivity | rewrite app_nil_r; reflexivity ].
Qed.

Lemma animate_calls (l : Loop) (t : Q) (s : AnimState) :
  setLatLngCalls (animate l t s) = setLatLngCalls s ++ animateWrites t l.
Proof.
  unfold animate, animateWrites. destruct (unfinished l t); simpl;
    [ reflexivity | rewrite <- app_assoc; reflexivity ].
Qed.

Lemma animate_marker (l : Loop) (t : Q) (s : AnimState) :
  markerLatLng (animate l t s) =
  if unfinished l t then interpolate l t else endLatLng l.
Proof.
  unfold animate. destruct (unfinished l t); reflexivity.
Qed.

Lemma animate_prev (l : Loop) (t : Q) (s : AnimState) :
  prevPositionRef (animate l t s) =
  if unfinished l t then prevPositionRef s else Some (endLatLng l).
Proof.
  unfold animate. destruct (unfinished l t); reflexivity.
Qed.

(** A whole frame: every scheduled loop runs, in order. *)
Lemma fold_animate_frames (t : Q) (ls : list Loop) :
  forall a : AnimState,
    frames (fold_left (fun acc l => animate l t acc) ls a) =
    frames a ++ filter (fun l => unfinished l t) ls.
Proof.
  induction ls as [ | l ls IH]; intros a; simpl.
  - rewrite app_nil_r. reflexivity.
  - rewrite IH, animate_frames. rewrite <- app_assoc.
    destruct (unfinished l t); reflexivity.
Qed.

Lemma fold_animate_calls (t : Q) (ls : list Loop) :
  forall a : AnimState,
    setLatLngCalls (fold_left (fun acc l => animate l t acc) ls a) =
    setLatLngCalls a ++ flat_map (animateWrites t) ls.
Proof.
  induction ls as [ | l ls IH]; intros a; simpl.
  - rewrite app_nil_r. reflexivity.
  - rewrite IH, animate_calls. rewrite <- app_assoc. reflexivity.
Qed.

Lemma runFrame_frames (t : Q) (s : AnimState) :
  frames (runFrame t s) = filter (fun l => unfinished l t) (frames s).
Proof.
  unfold runFrame. rewrite fold_animate_frames. reflexivity.
Qed.

Lemma runFrame_calls (t : Q) (s : AnimState) :
  setLatLngCalls (runFrame t s) =
  setLatLngCalls s ++ flat_map (animateWrites t) (frames s).
Proof.
  unfold runFrame. rewrite fold_animate_calls. reflexivity.
Qed.

(** The loop scheduled last is the one that runs last in a frame. *)
Lemma runFrame_last (t : Q) (s : AnimState) (older : list Loop) (l : Loop) :
  frames s = older ++ [l] ->
  runFrame t s =
  animate l t (fold_left (fun acc l' => animate l' t acc) older (takeFrames s)).
Proof.
  intros E. unfold runFrame. rewrite E, fold_left_app. reflexivity.
Qed.

(** As long as it is unfinished, the latest loop stays last in the
    queue. *)
Lemma runFrames_keeps_last (l : Loop) (ts : list Q) :
  Forall (fun u => unfinished l u = true) ts ->
  forall s older,
    frames s = older ++ [l] ->
    exists older', frames (runFrames ts s) = older' ++ [l].
Proof.
  induction 1 as [ | u ts Hu _ IH]; intros s older E; simpl.
  - exists older. exact E.
  - apply (IH (runFrame u s) (filter (fun l' => unfinished l' u) older)).
    rewrite runFrame_frames, E, filter_app. simpl. rewrite Hu. reflexivity.
Qed.

Lemma filter_twice {A : Type} (f g : A -> bool) (l : list A) :
  filter f (filter g l) = filter (fun x => g x && f x) l.
Proof.
  induction l as [ | x l IH]; simpl; [ reflexivity | ].
  destruct (g x); simpl; [ destruct (f x); rewrite IH; reflexivity | exact IH ].
Qed.

(** After several frames the queue holds the loops that were unfinished
    at every one of them. *)
Lemma runFrames_frames (ts : list Q) :
  forall s : AnimState,
    frames (runFrames ts s) =
    filter (fun l => forallb (unfinished l) ts) (frames s).
Proof.
  induction ts as [ | u ts IH]; intros s; simpl.
  - induction (frames s) as [ | x xs IHx]; simpl; [ reflexivity | ].
    rewrite <- IHx. reflexivity.
  - rewrite IH, runFrame_frames, filter_twice. reflexivity.
Qed.

(** C2, as the code has it.  A target change while loops are in flight
    cancels nothing.  The loops already scheduled stay scheduled and
    [marker.setLatLng] is not called; at every later frame each of them
    that has not yet reached progress 1 still runs and writes the marker.
    If the new target differs from the last settled position
    ([prevPositionRef]), a loop from that position to the new target joins
    the queue behind them: so long as no further change arrives, the
    position left at the end of each frame is that of this latest loop,
    and at a frame where its progress has reached 1 the marker is on the
    latest target, [prevPositionRef] records it and that loop is over.  If
    the new target equals the last settled position, nothing is scheduled
    and no pan is asked for: the superseded loops alone drive the marker,
    which ends on the target of the last of them. *)
Theorem supersede_appends_latest_wins
    (s : AnimState) (now dur : Q) (position start : LatLng) :
  markerRef s = true ->
  prevPositionRef s = Some start ->
  let l := mkLoop start position now dur in
  let s' := effect now position dur s in
  frames s' = frames s ++ (if sameLatLng start position then [] else [l]) /\
  setLatLngCalls s' = setLatLngCalls s /\
  (forall ts t,
      frames (runFrames ts s') =
        filter (fun l' => forallb (unfinished l') ts) (frames s') /\
      setLatLngCalls (runFrame t (runFrames ts s')) =
        setLatLngCalls (runFrames ts s')
          ++ flat_map (animateWrites t) (frames (runFrames ts s'))) /\
  (sameLatLng start position = false ->
   panToCalls s' = panToCalls s ++ [position] /\
   forall ts t,
     Forall (fun u => unfinished l u = true) ts ->
     let s'' := runFrames ts s' in
     markerLatLng (runFrame t s'') =
       (if unfinished l t then interpolate l t else position) /\
     (unfinished l t = false ->
      prevPositionRef (runFrame t s'') = Some position /\
      ~ In l (frames (runFrame t s'')))) /\
  (sameLatLng start position = true ->
   panToCalls s' = panToCalls s /\
   prevPositionRef s' = Some position /\
   forall older last ts t,
     frames s = older ++ [last] ->
     Forall (fun u => unfinished last u = true) ts ->
     let s'' := runFrames ts s' in
     markerLatLng (runFrame t s'') =
       (if unfinished last t then interpolate last t else endLatLng last) /\
     (unfinished last t = false ->
      prevPositionRef (runFrame t s'') = Some (endLatLng last))).
Proof.
  intros Hm Hp l s'.
  assert (Es' : s' = if sameLatLng start position
                     then setPrevPosition position s
                     else panTo position (requestAnimationFrame l s)).
  { unfold s', effect. rewrite Hm, Hp. reflexivity. }
  split; [ rewrite Es'; destruct (sameLatLng start position); simpl;
           [ rewrite app_nil_r | ]; reflexivity | ].
  split; [ rewrite Es'; destruct (sameLatLng start position); reflexivity | ].
  split; [ intros ts t; split;
           [ apply runFrames_frames | apply runFrame_calls ] | ].
  split.
  - intros Hd. rewrite Hd in Es'.
    assert (Ef : frames s' = frames s ++ [l]) by (rewrite Es'; reflexivity).
    split; [ rewrite Es'; reflexivity | ].
    intros ts t Hts s''.
    destruct (runFrames_keeps_last l ts Hts s' (frames s) Ef) as [older E].
    fold s'' in E. split.
    + rewrite (runFrame_last t s'' older l E). apply animate_marker.
    + intros Hfin. split.
      * rewrite (runFrame_last t s'' older l E), animate_prev, Hfin. reflexivity.
      * rewrite runFrame_frames. intros Hin. apply filter_In in Hin.
        destruct Hin as [_ Hu]. rewrite Hfin in Hu. discriminate Hu.
  - intros Hd. rewrite Hd in Es'.
    split; [ rewrite Es'; reflexivity | ].
    split; [ rewrite Es'; reflexivity | ].
    intros older last ts t Ef Hts s''.
    assert (Ef' : frames s' = older ++ [last]) by (rewrite Es'; exact Ef).
    destruct (runFrames_keeps_last last ts Hts s' older Ef') as [older' E].
    fold s'' in E. split.
    + rewrite (runFrame_last t s'' older' last E). apply animate_marker.
    + intros Hfin.
      rewrite (runFrame_last t s'' older' last E), animate_prev, Hfin.
      reflexivity.
Qed.

End AnimatorFacts.

Section AnimatorScenario.

Import Animator.
Local Open Scope Q_scope.

Lemma supersede_appends_latest_wins_witness :
  let l := mkLoop (0, 0) (10, 10) 1000 2000 in
  let s' := effect 1000 (10, 10) 2000 halfWay in
  frames s' = frames halfWay ++ (if sameLatLng (0, 0) (10, 10) then [] else [l]) /\
  setLatLngCalls s' = setLatLngCalls halfWay /\
  (forall ts t,
      frames (runFrames ts s') =
        filter (fun l' => forallb (unfinished l') ts) (frames s') /\
      setLatLngCalls (runFrame t (runFrames ts s')) =
        setLatLngCalls (runFrames ts s')
          ++ flat_map (animateWrites t) (frames (runFrames ts s'))) /\
  (sameLatLng (0, 0) (10, 10) = false ->
   panToCalls s' = panToCalls halfWay ++ [(10, 10)] /\
   forall ts t,
     Forall (fun u => unfinished l u = true) ts ->
     let s'' := runFrames ts s' in
     markerLatLng (runFrame t s'') =
       (if unfinished l t then interpolate l t else (10, 10)) /\
     (unfinished l t = false ->
      prevPositionRef (runFrame t s'') = Some (10, 10) /\
      ~ In l (frames (runFrame t s'')))) /\
  (sameLatLng (0, 0) (10, 10) = true ->
   panToCalls s' = panToCalls halfWay /\
   prevPositionRef s' = Some (10, 10) /\
   forall older last ts t,
     frames halfWay = older ++ [last] ->
     Forall (fun u => unfinished last u = true) ts ->
     let s'' := runFrames ts s' in
     markerLatLng (runFrame t s'') =
       (if unfinished last t then interpolate last t else endLatLng last) /\
     (unfinished last t = false ->
      prevPositionRef (runFrame t s'') = Some (endLatLng last))).
Proof.
  apply (supersede_appends_latest_wins halfWay 1000 2000 (10, 10) (0, 0)).
  - reflexivity.
  - reflexivity.
Defined.

(** A change of target back to the last settled position, as Reset makes
    during the first animation: nothing is scheduled, the loop in flight
    goes on and the marker ends on its target, not on the new one. *)
Example supersede_back_to_settled :
  let s := runFrames [1500; 2000] (effect 1000 (0, 0) 2000 halfWay) in
  frames (effect 1000 (0, 0) 2000 halfWay) = [firstLoop] /\
  panToCalls (effect 1000 (0, 0) 2000 halfWay) = [(10, 0)] /\
  frames s = [] /\ markerLatLng s = (10, 0) /\
  prevPositionRef s = Some (10, 0).
Proof.
  repeat apply conj; vm_compute; reflexivity.
Qed.

(** C2 as the specification words it fails.  After the target changed
    to (10,10) at time 1000 the loop towards the old target (10,0) is
    still scheduled, ahead of the new one; the frame at 1500 runs it and
    it moves the marker to (7.5, 0), further towards the old target; at
    2000 it completes, puts the marker on the old target and records that
    target in [prevPositionRef], before the new loop writes in turn. *)
Lemma superseded_loop_keeps_running :
  frames superseded = [firstLoop; secondLoop] /\
  map normalise (setLatLngCalls superseded) = [(5, 0)] /\
  map normalise (setLatLngCalls (runFrame 1500 superseded)) =
    [(5, 0); (15 # 2, 0); (5 # 2, 5 # 2)] /\
  map normalise (setLatLngCalls (runFrames [1500; 2000] superseded)) =
    [(5, 0); (15 # 2, 0); (5 # 2, 5 # 2); (10, 0); (10, 0); (5, 5)] /\
  prevPositionRef (runFrames [1500; 2000] superseded) = Some (10, 0).
Proof.
  repeat apply conj; vm_compute; reflexivity.
Qed.

(** The same scenario run to its end: once the latest loop is over the
    marker rests on the latest target and nothing is scheduled. *)
Example superseded_scenario_end :
  let s := runFrames [1500; 2000; 3000] superseded in
  markerLatLng s = (10, 10) /\ prevPositionRef s = Some (10, 10) /\
  frames s = [] /\ panToCalls s = [(10, 0); (10, 10)].
Proof.
  repeat apply conj; vm_compute; reflexivity.
Qed.

(** An unchanged target schedules nothing and only refreshes the ref. *)
Example effect_same_position :
  effect 500 (10, 0) 2000 (mounted (10, 0)) = mounted (10, 0).
Proof. reflexivity. Qed.

End AnimatorScenario.

(** * Further properties *)

(** ** Kinematics *)

Section ProgressSteps.

Import Kinematics.
Local Open Scope Q_scope.

(** X2. On a route of [length] points each step forward adds exactly
    [100 / length] to the progress percentage, so the percentage grows
    strictly with the index. *)
Theorem progressPercentage_step (index length : Z) :
  (0 < length)%Z ->
  progressPercentage (index + 1) length ==
    progressPercentage index length + 100 / inject_Z length /\
  progressPercentage index length < progressPercentage (index + 1) length.
Proof.
  intros Hn.
  assert (Hq : 0 < inject_Z length) by (unfold Qlt; simpl; lia).
  assert (Hne : ~ inject_Z length == 0) by (apply inject_Z_nonzero; exact Hn).
  assert (Estep : progressPercentage (index + 1) length ==
                  progressPercentage index length + 100 / inject_Z length).
  { rewrite !progressPercentage_pos by exact Hn.
    rewrite (inject_Z_plus (index + 1) 1). field. exact Hne. }
  split; [ exact Estep | ].
  rewrite Estep.
  rewrite <- (Qplus_0_r (progressPercentage index length)) at 1.
  apply Qplus_lt_r.
  apply Qlt_shift_div_l; [ exact Hq | ].
  rewrite Qmult_0_l. reflexivity.
Qed.

Lemma progressPercentage_step_witness :
  progressPercentage (0 + 1) 4 == progressPercentage 0 4 + 100 / inject_Z 4 /\
  progressPercentage 0 4 < progressPercentage (0 + 1) 4.
Proof.
  apply (progressPercentage_step 0 4). lia.
Defined.

End ProgressSteps.

Section SpeedShape.

Import Kinematics.
Local Open Scope string_scope.

Variable Date_getTime : option string -> option Z.

(** X3. The speed at an index looks at the point there and the one
    before it and at nothing else: it is the speed at index 1 of the
    two-point route made of these two. *)
Theorem calculateSpeedKmH_local (i : Z) (rd : list Waypoint) (p c : Waypoint) :
  lookup rd (i - 1) = Some p -> lookup rd i = Some c ->
  calculateSpeedKmH Date_getTime i rd = calculateSpeedKmH Date_getTime 1 [p; c].
Proof.
  intros Hp Hc.
  assert (Hi1 : (0 <= i - 1 <= len rd - 1)%Z)
    by (apply lookup_Some_iff; exists p; exact Hp).
  assert (Hi : (0 <= i <= len rd - 1)%Z)
    by (apply lookup_Some_iff; exists c; exact Hc).
  rewrite (calculateSpeedKmH_in_range Date_getTime i rd p c)
    by (assumption || lia).
  reflexivity.
Qed.

Lemma toFixed2_unsigned (x : R) :
  (0 <= x)%R -> exists c s, toFixed2 x = String c s /\ c <> "-"%char.
Proof.
  intros Hx. unfold toFixed2.
  destruct (Rlt_dec x 0) as [Hneg | _]; [ lra | ].
  match goal with
  | |- context [ String_of_Z (?n / 100) ++ ?rest ] =>
      assert (Hn : (0 <= n)%Z)
  end.
  { apply Int_part_nonneg. pose proof (Rabs_pos x). lra. }
  match goal with
  | |- context [ String_of_Z ?q ++ ?rest ] =>
      destruct (String_of_Z_unsigned q) as (c & s & E & Hc);
        [ apply Z.div_pos; lia | rewrite E ]
  end.
  simpl. eexists; eexists; (split; [ reflexivity | exact Hc ]).
Qed.

(** X4. Whatever the route and the dates, the speed shown never carries
    a minus sign: with a positive time delta the quotient of distance and
    hours is not negative and is printed unsigned. *)
Theorem calculateSpeedKmH_unsigned (i : Z) (rd : list Waypoint) :
  exists c s,
    calculateSpeedKmH Date_getTime i rd = String c s /\ c <> "-"%char.
Proof.
  unfold calculateSpeedKmH.
  destruct ((i =? 0)%Z || (len rd <=? 1)%Z);
    [ eexists; eexists; (split; [ reflexivity | discriminate ]) | ].
  destruct (lookup rd (i - 1)) as [p | ];
    [ | eexists; eexists; (split; [ reflexivity | discriminate ]) ].
  destruct (lookup rd i) as [c | ];
    [ | eexists; eexists; (split; [ reflexivity | discriminate ]) ].
  destruct (timeDeltaMs Date_getTime p c) as [ms | ];
    [ | eexists; eexists; (split; [ reflexivity | discriminate ]) ].
  destruct (Rle_dec (timeDeltaHours ms) 0) as [Hle | Hgt];
    [ eexists; eexists; (split; [ reflexivity | discriminate ]) | ].
  apply toFixed2_unsigned.
  unfold Rdiv. apply Rmult_le_pos.
  - unfold distanceKm. apply distance_nonneg.
  - left. apply Rinv_0_lt_compat. lra.
Qed.

End SpeedShape.

Lemma calculateSpeedKmH_local_witness :
  Kinematics.calculateSpeedKmH Kinematics.exampleDate 2 Kinematics.exampleRoute =
  Kinematics.calculateSpeedKmH Kinematics.exampleDate 1
    [ mkWaypoint (173855 # 10000) (784867 # 10000) (Some "2024-07-20T10:00:05Z"%string);
      mkWaypoint (17386 # 1000) (78487 # 1000) (Some "2024-07-20T11:15:03Z"%string) ].
Proof.
  apply (calculateSpeedKmH_local Kinematics.exampleDate 2 Kinematics.exampleRoute).
  - reflexivity.
  - reflexivity.
Defined.

(** ** Playback controller *)

Section TickerFacts.

Import Playback.
Local Open Scope Z_scope.

Lemma effectCleanup_nextTimerId (s : AppState) :
  nextTimerId (effectCleanup s) = nextTimerId s.
Proof.
  unfold effectCleanup. destruct (intervalRef s); reflexivity.
Qed.

(** After cleanup and body the ticker is armed exactly when the effect's
    condition holds. *)
Lemma effect_rerun_timers (s : AppState) :
  (forall t, In t (timers s) -> intervalRef s = Some (timerId t)) ->
  timers (effectBody (effectCleanup s)) =
  if isPlaying s && (len (routeData s) >? 0)
     && (currentIndex s <? len (routeData s) - 1)
  then [mkTimer (nextTimerId s) (routeData s)]
  else [].
Proof.
  intros H.
  pose proof (effectCleanup_timers s H) as Hts.
  destruct (effectCleanup_data s) as (F1 & F2 & F3 & _).
  pose proof (effectCleanup_nextTimerId s) as F5.
  unfold effectBody. rewrite F1, F2, F3.
  destruct (isPlaying s && (len (routeData s) >? 0)
            && (currentIndex s <? len (routeData s) - 1)).
  - unfold setIntervalRef. simpl. rewrite Hts, F1, F5. reflexivity.
  - exact Hts.
Qed.

Lemma rerender_armed (b : bool) (old new : AppState) :
  Inv old -> armedWhilePlaying old ->
  timers new = timers old -> intervalRef new = intervalRef old ->
  0 <= currentIndex new ->
  (depsChanged b old new = false -> new = old) ->
  armedWhilePlaying (rerender b old new).
Proof.
  intros [_ (Ht & _)] Hold Et Ei H0 Hsame. unfold rerender.
  destruct (depsChanged b old new) eqn:D.
  - unfold armedWhilePlaying.
    destruct (effectBody_data (effectCleanup new)) as (E1 & E2 & E3 & _).
    destruct (effectCleanup_data new) as (F1 & F2 & F3 & _).
    rewrite E1, E2, E3, F1, F2, F3. intros Hp Hlt.
    rewrite effect_rerun_timers.
    + rewrite Hp.
      destruct (Z.gtb_spec (len (routeData new)) 0) as [_ | L]; [ | lia ].
      destruct (Z.ltb_spec (currentIndex new) (len (routeData new) - 1))
        as [_ | L]; [ | lia ].
      simpl. discriminate.
    + rewrite Et, Ei. intros t Hin. apply (Ht t Hin).
  - rewrite (Hsame eq_refl). exact Hold.
Qed.

Lemma armed_step (e : Event) (s : AppState) :
  Inv s -> armedWhilePlaying s -> armedWhilePlaying (step e s).
Proof.
  intros HI Ha. pose proof HI as [(D1 & D2 & D3 & D4) (T1 & T2 & T3)].
  destruct e as [rd | | | | ]; simpl.
  - unfold load. destruct (isLoading s); [ | exact Ha ].
    apply rerender_armed; try reflexivity; try assumption.
    intros D. discriminate D.
  - unfold loadFailed. destruct (isLoading s); exact Ha.
  - unfold play. destruct (controlsEnabled s); [ | exact Ha ].
    apply rerender_armed; try assumption;
      try (unfold togglePlay;
           destruct (currentIndex s >=? len (routeData s) - 1); reflexivity).
    + unfold togglePlay.
      destruct (currentIndex s >=? len (routeData s) - 1); simpl; lia.
    + apply unchanged_state;
        unfold togglePlay;
        destruct (currentIndex s >=? len (routeData s) - 1); reflexivity.
  - unfold reset. destruct (controlsEnabled s); [ | exact Ha ].
    apply rerender_armed; try reflexivity; try assumption.
    apply unchanged_state; reflexivity.
  - unfold tick. destruct (timers s) as [ | t ts]; [ exact Ha | ].
    apply rerender_armed; try assumption;
      try (unfold intervalCallback;
           destruct (currentIndex s >=? len (captured t) - 1); reflexivity).
    + unfold intervalCallback.
      destruct (currentIndex s >=? len (captured t) - 1); simpl; lia.
    + apply unchanged_state;
        unfold intervalCallback;
        destruct (currentIndex s >=? len (captured t) - 1); reflexivity.
Qed.

Lemma reachable_armed (s : AppState) : reachable s -> armedWhilePlaying s.
Proof.
  induction 1 as [ | e s Hr IH].
  - intros Hp. discriminate Hp.
  - apply armed_step; [ apply reachable_Inv; exact Hr | exact IH ].
Qed.

(** X5. The ticker runs exactly while the component is playing before
    the last index: in every reachable state an interval is live if and
    only if [isPlaying] holds and [currentIndex] is short of the last
    index; there is never more than one, and it closed over the current
    route. *)
Theorem ticker_exactly_while_playing (s : AppState) :
  reachable s ->
  (timers s <> [] <->
   isPlaying s = true /\ currentIndex s < len (routeData s) - 1) /\
  (List.length (timers s) <= 1)%nat /\
  (forall t, In t (timers s) -> captured t = routeData s).
Proof.
  intros Hr. destruct (reachable_Inv s Hr) as [_ (T1 & T2 & T3)].
  split; [ | split ].
  - split; [ exact T2 | ].
    intros [Hp Hlt]. exact (reachable_armed s Hr Hp Hlt).
  - exact T3.
  - intros t Hin. apply (T1 t Hin).
Qed.

(** X6. While not playing the ticker is silent: a tick leaves the state
    as it is. *)
Theorem tick_while_paused_is_noop (s : AppState) :
  reachable s -> isPlaying s = false -> tick s = s.
Proof.
  intros Hr Hp. destruct (reachable_Inv s Hr) as [_ (_ & T2 & _)].
  unfold tick. destruct (timers s) as [ | t ts] eqn:T; [ reflexivity | ].
  destruct T2 as [Hp' _]; [ discriminate | ].
  rewrite Hp in Hp'. discriminate Hp'.
Qed.

Lemma tick_playing_data (s : AppState) :
  reachable s -> isPlaying s = true ->
  currentIndex s < len (routeData s) - 1 ->
  currentIndex (tick s) = currentIndex s + 1 /\
  isPlaying (tick s) = true /\
  routeData (tick s) = routeData s.
Proof.
  intros Hr Hp Hlt.
  destruct (reachable_Inv s Hr) as [_ (T1 & _ & _)].
  pose proof (reachable_armed s Hr Hp Hlt) as Hne.
  unfold tick. destruct (timers s) as [ | t ts] eqn:T; [ congruence | ].
  destruct (T1 t) as [Ec _]; [ left; reflexivity | ].
  destruct (rerender_data false s (intervalCallback (captured t) s))
    as (E1 & E2 & E3 & _).
  rewrite E1, E2, E3, Ec. unfold intervalCallback.
  destruct (Z.geb_spec (currentIndex s) (len (routeData s) - 1)) as [G | _];
    [ lia | ].
  simpl. auto.
Qed.

(** X7. While playing before the last index a tick advances by exactly
    one point, keeps playing and keeps the route; the ticker is armed
    again unless the last index was reached. *)
Theorem tick_while_playing_advances (s : AppState) :
  reachable s -> isPlaying s = true ->
  currentIndex s < len (routeData s) - 1 ->
  currentIndex (tick s) = currentIndex s + 1 /\
  isPlaying (tick s) = true /\
  routeData (tick s) = routeData s /\
  (timers (tick s) <> [] <-> currentIndex s + 1 < len (routeData s) - 1).
Proof.
  intros Hr Hp Hlt.
  destruct (tick_playing_data s Hr Hp Hlt) as (Ei & Epl & Erd).
  repeat apply conj; try assumption.
  - intros Hts.
    destruct (ticker_discipline (tick s) (reachable_step IntervalFires s Hr))
      as [_ H].
    destruct (H Hts) as [_ Hlt']. rewrite Ei, Erd in Hlt'. exact Hlt'.
  - intros Hlt'.
    apply (reachable_armed (tick s) (reachable_step IntervalFires s Hr)).
    + exact Epl.
    + rewrite Ei, Erd. exact Hlt'.
Qed.

Lemma reset_data (s : AppState) :
  reachable s -> routeData s <> [] ->
  currentIndex (reset s) = 0 /\ isPlaying (reset s) = false /\
  routeData (reset s) = routeData s.
Proof.
  intros Hr Hne. unfold reset. rewrite (reachable_loaded s Hr Hne).
  destruct (rerender_data false s (resetSimulation s)) as (E1 & E2 & E3 & _).
  rewrite E1, E2, E3. auto.
Qed.

(** X8. Reset, from any state of a loaded route, goes back to index 0,
    stops playing and leaves no interval behind: a tick after it does
    nothing. *)
Theorem reset_stops_playback (s : AppState) :
  reachable s -> routeData s <> [] ->
  currentIndex (reset s) = 0 /\
  isPlaying (reset s) = false /\
  routeData (reset s) = routeData s /\
  timers (reset s) = [] /\
  tick (reset s) = reset s.
Proof.
  intros Hr Hne.
  assert (Hr' : reachable (reset s)) by (apply (reachable_step ClickReset s Hr)).
  destruct (reset_data s Hr Hne) as (Ei & Epl & Erd).
  assert (Hts : timers (reset s) = []).
  { destruct (timers (reset s)) as [ | t ts] eqn:T; [ reflexivity | ].
    destruct (ticker_discipline (reset s) Hr') as [_ H].
    destruct H as [Hp _]; [ rewrite T; discriminate | ].
    rewrite Epl in Hp. discriminate Hp. }
  repeat apply conj; try assumption.
  unfold tick. rewrite Hts. reflexivity.
Qed.

(** X9. Pausing: the play button pressed while playing before the last
    index stops playing where it is and clears the interval, so that
    ticks no longer move the index. *)
Theorem pause_stops_ticker (s : AppState) :
  reachable s -> isPlaying s = true ->
  currentIndex s < len (routeData s) - 1 ->
  isPlaying (play s) = false /\
  currentIndex (play s) = currentIndex s /\
  timers (play s) = [] /\
  tick (play s) = play s.
Proof.
  intros Hr Hp Hlt.
  assert (Hne : routeData s <> []).
  { intros E. destruct (reachable_Inv s Hr) as [(_ & _ & D3 & _) _].
    rewrite E in Hlt. unfold len in Hlt. simpl in Hlt. lia. }
  assert (Hr' : reachable (play s)) by (apply (reachable_step ClickPlay s Hr)).
  assert (Hdata : isPlaying (play s) = false /\
                  currentIndex (play s) = currentIndex s).
  { unfold play. rewrite (reachable_loaded s Hr Hne).
    destruct (rerender_data false s (togglePlay s)) as (_ & E2 & E3 & _).
    rewrite E2, E3. unfold togglePlay.
    destruct (Z.geb_spec (currentIndex s) (len (routeData s) - 1)) as [G | _];
      [ lia | ].
    simpl. rewrite Hp. auto. }
  destruct Hdata as (Epl & Ei).
  assert (Hts : timers (play s) = []).
  { destruct (timers (play s)) as [ | t ts] eqn:T; [ reflexivity | ].
    destruct (ticker_discipline (play s) Hr') as [_ H].
    destruct H as [Hp' _]; [ rewrite T; discriminate | ].
    rewrite Epl in Hp'. discriminate Hp'. }
  repeat apply conj; try assumption.
  unfold tick. rewrite Hts. reflexivity.
Qed.

(** X10. Resuming: the play button pressed while paused before the last
    index starts playing at the same index with exactly one interval,
    closed over the current route. *)
Theorem resume_arms_ticker (s : AppState) :
  reachable s -> isPlaying s = false ->
  currentIndex s < len (routeData s) - 1 ->
  isPlaying (play s) = true /\
  currentIndex (play s) = currentIndex s /\
  exists id, timers (play s) = [mkTimer id (routeData s)].
Proof.
  intros Hr Hp Hlt.
  assert (Hne : routeData s <> []).
  { intros E. destruct (reachable_Inv s Hr) as [(_ & _ & D3 & _) _].
    rewrite E in Hlt. unfold len in Hlt. simpl in Hlt. lia. }
  assert (Hr' : reachable (play s)) by (apply (reachable_step ClickPlay s Hr)).
  assert (Hdata : isPlaying (play s) = true /\
                  currentIndex (play s) = currentIndex s /\
                  routeData (play s) = routeData s).
  { unfold play. rewrite (reachable_loaded s Hr Hne).
    destruct (rerender_data false s (togglePlay s)) as (E1 & E2 & E3 & _).
    rewrite E1, E2, E3. unfold togglePlay.
    destruct (Z.geb_spec (currentIndex s) (len (routeData s) - 1)) as [G | _];
      [ lia | ].
    simpl. rewrite Hp. auto. }
  destruct Hdata as (Epl & Ei & Erd).
  repeat apply conj; try assumption.
  destruct (reachable_Inv (play s) Hr') as [_ (T1 & _ & T3)].
  assert (Hts : timers (play s) <> []).
  { apply (reachable_armed (play s) Hr' Epl). rewrite Ei, Erd. exact Hlt. }
  destruct (timers (play s)) as [ | t ts] eqn:T; [ congruence | ].
  destruct ts as [ | t' ts]; [ | simpl in T3; lia ].
  destruct (T1 t) as [Ec _]; [ left; reflexivity | ].
  exists (timerId t). destruct t as [id cap]. simpl in *.
  rewrite Ec, Erd. reflexivity.
Qed.

Lemma playingAtEnd_step (e : Event) (s : AppState) :
  Inv s -> playingAtEnd s -> playingAtEnd (step e s).
Proof.
  intros HI Ha. pose proof HI as [(D1 & D2 & D3 & D4) (T1 & T2 & T3)].
  destruct e as [rd | | | | ]; simpl.
  - unfold load. destruct (isLoading s) eqn:L; [ | exact Ha ].
    destruct (D2 (D1 eq_refl)) as [I0 _].
    destruct (rerender_data true s (setIsLoading false (setRouteData rd s)))
      as (E1 & E2 & E3 & _).
    unfold playingAtEnd. rewrite E1, E2, E3. simpl. lia.
  - unfold loadFailed. destruct (isLoading s); exact Ha.
  - unfold play. destruct (controlsEnabled s); [ | exact Ha ].
    destruct (rerender_data false s (togglePlay s)) as (E1 & E2 & E3 & _).
    unfold playingAtEnd. rewrite E1, E2, E3. unfold togglePlay.
    destruct (Z.geb_spec (currentIndex s) (len (routeData s) - 1)) as [G | G];
      simpl; [ reflexivity | lia ].
  - unfold reset. destruct (controlsEnabled s); [ | exact Ha ].
    destruct (rerender_data false s (resetSimulation s)) as (E1 & E2 & E3 & _).
    unfold playingAtEnd. rewrite E1, E2, E3. simpl. lia.
  - unfold tick. destruct (timers s) as [ | t ts] eqn:T; [ exact Ha | ].
    destruct (T1 t) as [Ec _]; [ left; reflexivity | ].
    destruct T2 as [Hp Hlt]; [ discriminate | ].
    destruct (rerender_data false s (intervalCallback (captured t) s))
      as (E1 & E2 & E3 & _).
    unfold playingAtEnd. rewrite E1, E2, E3, Ec. unfold intervalCallback.
    destruct (Z.geb_spec (currentIndex s) (len (routeData s) - 1)) as [G | _];
      [ lia | ].
    simpl. intros _ _. exact Hp.
Qed.

(** X11. On a route of two or more points the first button never reads
    "Replay": whenever the last index is reached the component is still
    playing, and the button reads "Pause". *)
Theorem replay_label_never_shown (s : AppState) :
  reachable s -> 2 <= len (routeData s) ->
  controlLabel s <> LabelReplay /\
  (currentIndex s = len (routeData s) - 1 ->
   isPlaying s = true /\ controlLabel s = LabelPause).
Proof.
  intros Hr Hlen.
  assert (Hend : playingAtEnd s).
  { clear Hlen. induction Hr as [ | e s Hr IH].
    - intros H. unfold initial, len in H. simpl in H. lia.
    - apply playingAtEnd_step; [ apply reachable_Inv; exact Hr | exact IH ]. }
  assert (Hne : routeData s <> []).
  { intros E. rewrite E in Hlen. unfold len in Hlen. simpl in Hlen. lia. }
  destruct (reachable_Inv s Hr) as [(_ & _ & _ & D4) _].
  specialize (D4 Hne).
  unfold controlLabel. split.
  - destruct (isPlaying s) eqn:P; [ discriminate | ].
    destruct (Z.geb_spec (currentIndex s) (len (routeData s) - 1)) as [G | _];
      [ | discriminate ].
    assert (E : currentIndex s = len (routeData s) - 1) by lia.
    rewrite (Hend Hlen E) in P. discriminate P.
  - intros E. rewrite (Hend Hlen E). split; reflexivity.
Qed.

(** Before the last index the play button only flips the playing flag. *)
Lemma play_before_end (s : AppState) :
  reachable s -> currentIndex s < len (routeData s) - 1 ->
  isPlaying (play s) = negb (isPlaying s) /\
  currentIndex (play s) = currentIndex s /\
  routeData (play s) = routeData s.
Proof.
  intros Hr Hlt.
  assert (Hne : routeData s <> []).
  { intros E. destruct (reachable_Inv s Hr) as [(_ & _ & D3 & _) _].
    rewrite E in Hlt. unfold len in Hlt. simpl in Hlt. lia. }
  unfold play. rewrite (reachable_loaded s Hr Hne).
  destruct (rerender_data false s (togglePlay s)) as (E1 & E2 & E3 & _).
  rewrite E1, E2, E3. unfold togglePlay.
  destruct (Z.geb_spec (currentIndex s) (len (routeData s) - 1)) as [G | _];
    [ lia | ].
  simpl. auto.
Qed.

(** X12. Pressing the play button twice before the last index, pause and
    resume in either order, comes back to the same index, the same
    playing flag and the same route. *)
Theorem play_twice_restores (s : AppState) :
  reachable s -> currentIndex s < len (routeData s) - 1 ->
  isPlaying (play (play s)) = isPlaying s /\
  currentIndex (play (play s)) = currentIndex s /\
  routeData (play (play s)) = routeData s.
Proof.
  intros Hr Hlt.
  destruct (play_before_end s Hr Hlt) as (Ep & Ei & Erd).
  assert (Hr' : reachable (play s)) by (apply (reachable_step ClickPlay s Hr)).
  assert (Hlt' : currentIndex (play s) < len (routeData (play s)) - 1)
    by (rewrite Ei, Erd; exact Hlt).
  destruct (play_before_end (play s) Hr' Hlt') as (Ep' & Ei' & Erd').
  rewrite Ep', Ei', Erd', Ep, Ei, Erd, negb_involutive. auto.
Qed.

End TickerFacts.

(** ** What the render derives *)

Section RenderFacts.

Import Playback Render.
Local Open Scope Z_scope.

Variable Date_getTime : option string -> option Z.

Lemma lookup_nil {A : Type} (i : Z) : lookup (@nil A) i = None.
Proof.
  unfold lookup. destruct (i <? 0); [ reflexivity | ].
  destruct (Z.to_nat i); reflexivity.
Qed.

(** [slice(0, i + 1)] at a valid index keeps the first [i + 1] items. *)
Lemma slice_upto {A : Type} (l : list A) (i : Z) :
  0 <= i <= len l - 1 ->
  slice l 0 (i + 1) = firstn (S (Z.to_nat i)) l.
Proof.
  intros Hi. unfold slice. simpl.
  destruct (Z.ltb_spec (i + 1) 0) as [L | _]; [ lia | ].
  rewrite (Z.min_l 0 (len l)) by lia.
  rewrite (Z.min_l (i + 1) (len l)) by lia.
  replace (Z.to_nat (i + 1 - 0)) with (S (Z.to_nat i)) by lia.
  reflexivity.
Qed.

Lemma firstn_snoc {A : Type} (l : list A) :
  forall (n : nat) (x : A),
    nth_error l n = Some x -> firstn (S n) l = firstn n l ++ [x].
Proof.
  induction l as [ | a l IH]; intros n x H.
  - destruct n; discriminate H.
  - destruct n as [ | n].
    + simpl in H. injection H as H. subst a. reflexivity.
    + simpl in H. change (firstn (S (S n)) (a :: l)) with (a :: firstn (S n) l).
      rewrite (IH n x H). reflexivity.
Qed.

Lemma lookup_nth_error {A : Type} (l : list A) (i : Z) (x : A) :
  lookup l i = Some x -> 0 <= i /\ nth_error l (Z.to_nat i) = Some x.
Proof.
  unfold lookup. destruct (Z.ltb_spec i 0) as [L | L];
    [ discriminate | auto ].
Qed.

(** X13. With a non-empty route the position shown is always the route
    point at [currentIndex], never a fallback; with an empty route it is
    the initial centre, without a timestamp. *)
Theorem currentPosition_tracks_index (s : AppState) :
  reachable s ->
  (routeData s <> [] ->
   lookup (routeData s) (currentIndex s) =
   Some (currentPosition (routeData s) (currentIndex s))) /\
  (routeData s = [] ->
   currentPosition (routeData s) (currentIndex s) =
   mkWaypoint (fst INITIAL_CENTER) (snd INITIAL_CENTER) None).
Proof.
  intros Hr. split.
  - intros Hne.
    destruct (reachable_Inv s Hr) as [(_ & _ & D3 & D4) _].
    destruct (proj2 (lookup_Some_iff (routeData s) (currentIndex s)))
      as [p Hp]; [ split; [ exact D3 | exact (D4 Hne) ] | ].
    unfold currentPosition. rewrite Hp. reflexivity.
  - intros E. rewrite E. unfold currentPosition. rewrite !lookup_nil.
    reflexivity.
Qed.

(** X14. With a non-empty route the travelled path has [currentIndex + 1]
    points, is the beginning of the full route, ends at the position
    shown, and is the whole route at the last index. *)
Theorem traveledRouteCoords_prefix (s : AppState) :
  reachable s -> routeData s <> [] ->
  let traveled := traveledRouteCoords (routeData s) (currentIndex s) in
  Z.of_nat (List.length traveled) = currentIndex s + 1 /\
  (exists rest, fullRouteCoords (routeData s) = traveled ++ rest) /\
  (exists before,
      traveled = before ++ [markerPosition (routeData s) (currentIndex s)]) /\
  (currentIndex s = len (routeData s) - 1 ->
   traveled = fullRouteCoords (routeData s)).
Proof.
  intros Hr Hne traveled.
  destruct (reachable_Inv s Hr) as [(_ & _ & D3 & D4) _].
  specialize (D4 Hne).
  assert (Hi : 0 <= currentIndex s <= len (routeData s) - 1) by lia.
  destruct (proj2 (lookup_Some_iff (routeData s) (currentIndex s)) Hi)
    as [p Hp].
  destruct (lookup_nth_error _ _ _ Hp) as [_ Hnth].
  assert (Et : traveled =
               map coords (firstn (S (Z.to_nat (currentIndex s))) (routeData s))).
  { unfold traveled, traveledRouteCoords. rewrite slice_upto by exact Hi.
    reflexivity. }
  repeat apply conj.
  - rewrite Et, length_map, length_firstn. unfold len in Hi. lia.
  - exists (map coords (skipn (S (Z.to_nat (currentIndex s))) (routeData s))).
    rewrite Et, <- map_app, firstn_skipn. reflexivity.
  - exists (map coords (firstn (Z.to_nat (currentIndex s)) (routeData s))).
    rewrite Et, (firstn_snoc _ _ _ Hnth), map_app. simpl.
    unfold markerPosition, currentPosition. rewrite Hp. reflexivity.
  - intros Elast. rewrite Et. unfold fullRouteCoords.
    rewrite firstn_all2; [ reflexivity | ]. unfold len in Elast. lia.
Qed.

(** The same timestamp twice gives ["00:00"], unless it is present and
    not a date. *)
Lemma formatElapsedTime_same (t : option string) :
  Kinematics.falsy t = true \/ Date_getTime t <> None ->
  Kinematics.formatElapsedTime Date_getTime t t = "00:00"%string.
Proof.
  intros H. unfold Kinematics.formatElapsedTime.
  destruct (Kinematics.falsy t) eqn:F; [ reflexivity | ].
  destruct H as [H | H]; [ discriminate H | ].
  destruct (Date_getTime t) as [v | ]; [ | contradiction H; reflexivity ].
  simpl. rewrite Z.sub_diag. reflexivity.
Qed.

(** X15. After reset the panel is back at the start of the route: speed
    ["0.00"], the first point as position, a travelled path of that one
    point, a progress of [100 / length] percent and, when the first
    timestamp is absent or a date, an elapsed time of ["00:00"]. *)
Theorem reset_panel (s : AppState) (first : Waypoint) (rest : list Waypoint) :
  reachable s -> routeData s = first :: rest ->
  let rd := routeData (reset s) in
  let i := currentIndex (reset s) in
  Kinematics.calculateSpeedKmH Date_getTime i rd = "0.00"%string /\
  currentPosition rd i = first /\
  traveledRouteCoords rd i = [coords first] /\
  (Kinematics.progressPercentage i (len rd) == 100 / inject_Z (len rd))%Q /\
  (Kinematics.falsy (timestamp first) = true \/
   Date_getTime (timestamp first) <> None ->
   elapsedDisplay Date_getTime rd i = Some "00:00"%string).
Proof.
  intros Hr E rd i.
  assert (Hne : routeData s <> []) by (rewrite E; discriminate).
  destruct (reset_data s Hr Hne) as (Ei & _ & Erd).
  unfold rd, i. rewrite Ei, Erd, E.
  assert (Hlen : 1 <= len (first :: rest)) by (apply len_pos; discriminate).
  repeat apply conj.
  - reflexivity.
  - reflexivity.
  - unfold traveledRouteCoords.
    rewrite slice_upto by lia.
    reflexivity.
  - rewrite progressPercentage_pos by lia.
    simpl (0 + 1). field.
    apply inject_Z_nonzero. lia.
  - intros H. unfold elapsedDisplay.
    change (currentPosition (first :: rest) 0) with first.
    rewrite (formatElapsedTime_same (timestamp first) H). reflexivity.
Qed.

(** X16. While playing, a tick moves the marker's target to the next
    point of the route. *)
Theorem tick_moves_marker_target (s : AppState) (next : Waypoint) :
  reachable s -> isPlaying s = true ->
  lookup (routeData s) (currentIndex s + 1) = Some next ->
  markerPosition (routeData (tick s)) (currentIndex (tick s)) = coords next.
Proof.
  intros Hr Hp Hnext.
  assert (Hi : 0 <= currentIndex s + 1 <= len (routeData s) - 1)
    by (apply lookup_Some_iff; exists next; exact Hnext).
  destruct (tick_playing_data s Hr Hp) as (Ei & _ & Erd); [ lia | ].
  rewrite Ei, Erd. unfold markerPosition, currentPosition.
  rewrite Hnext. reflexivity.
Qed.

End RenderFacts.

(** ** Interpolation animator *)

Section AnimatorTiming.

Import Animator.
Local Open Scope Q_scope.

(** A linear blend with a factor in [0, 1] lies between its two ends. *)
Lemma blend_between (a b p : Q) :
  0 <= p -> p <= 1 ->
  Qmin a b <= a + (b - a) * p /\ a + (b - a) * p <= Qmax a b.
Proof.
  intros H0 H1.
  destruct (Q.min_spec a b) as [[Hlt Emin] | [Hle Emin]];
    destruct (Q.max_spec a b) as [[Hlt' Emax] | [Hle' Emax]];
    rewrite Emin, Emax; split; Lqa.nra.
Qed.

Lemma progress_range (l : Loop) (t : Q) :
  0 < duration l -> startTime l <= t ->
  0 <= progress l t /\ progress l t <= 1.
Proof.
  intros Hd Ht. unfold progress. split.
  - apply Q.min_glb; [ discriminate | ].
    apply Qle_shift_div_l; [ exact Hd | ]. Lqa.lra.
  - apply Q.le_min_l.
Qed.

(** X17. For a frame at or after the loop's start, with a positive
    duration, the progress is within [0, 1] and the interpolated position
    lies between the start and the target, in latitude and in
    longitude. *)
Theorem interpolate_on_segment (l : Loop) (t : Q) :
  0 < duration l -> startTime l <= t ->
  (0 <= progress l t /\ progress l t <= 1) /\
  (Qmin (fst (startLatLng l)) (fst (endLatLng l)) <= fst (interpolate l t) /\
   fst (interpolate l t) <= Qmax (fst (startLatLng l)) (fst (endLatLng l))) /\
  (Qmin (snd (startLatLng l)) (snd (endLatLng l)) <= snd (interpolate l t) /\
   snd (interpolate l t) <= Qmax (snd (startLatLng l)) (snd (endLatLng l))).
Proof.
  intros Hd Ht. destruct (progress_range l t Hd Ht) as [H0 H1].
  split; [ split; assumption | ].
  unfold interpolate. simpl. split; apply blend_between; assumption.
Qed.

Lemma interpolate_on_segment_witness :
  (0 <= progress secondLoop 1500 /\ progress secondLoop 1500 <= 1) /\
  (Qmin (fst (startLatLng secondLoop)) (fst (endLatLng secondLoop))
     <= fst (interpolate secondLoop 1500) /\
   fst (interpolate secondLoop 1500)
     <= Qmax (fst (startLatLng secondLoop)) (fst (endLatLng secondLoop))) /\
  (Qmin (snd (startLatLng secondLoop)) (snd (endLatLng secondLoop))
     <= snd (interpolate secondLoop 1500) /\
   snd (interpolate secondLoop 1500)
     <= Qmax (snd (startLatLng secondLoop)) (snd (endLatLng secondLoop))).
Proof.
  apply (interpolate_on_segment secondLoop 1500).
  - reflexivity.
  - discriminate.
Defined.

(** X18. With a positive duration a loop is unfinished at a frame
    exactly when the frame comes before start plus duration. *)
Theorem unfinished_iff_before_deadline (l : Loop) (t : Q) :
  0 < duration l ->
  (unfinished l t = true <-> t < startTime l + duration l).
Proof.
  intros Hd. unfold unfinished, progress.
  rewrite negb_true_iff.
  assert (Hdiv : 1 <= (t - startTime l) / duration l <->
                 startTime l + duration l <= t).
  { split.
    - intros H. apply (Qmult_le_compat_r _ _ (duration l)) in H;
        [ | apply Qlt_le_weak; exact Hd ].
      rewrite Qmult_1_l in H.
      assert (E : (t - startTime l) / duration l * duration l == t - startTime l)
        by (field; intros E0; rewrite E0 in Hd; discriminate Hd).
      rewrite E in H. Lqa.lra.
    - intros H. apply Qle_shift_div_l; [ exact Hd | ]. Lqa.lra. }
  split.
  - intros Hb. apply Qnot_le_lt. intros Hle.
    assert (Hc : Qle_bool 1 (Qmin 1 ((t - startTime l) / duration l)) = true).
    { apply Qle_bool_iff. apply Q.min_glb; [ apply Qle_refl | ].
      apply Hdiv. exact Hle. }
    rewrite Hb in Hc. discriminate Hc.
  - intros Hlt.
    destruct (Qle_bool 1 (Qmin 1 ((t - startTime l) / duration l))) eqn:B;
      [ | reflexivity ].
    apply Qle_bool_iff in B.
    assert (H1 : 1 <= (t - startTime l) / duration l).
    { eapply Qle_trans; [ exact B | apply Q.le_min_r ]. }
    apply Hdiv in H1. Lqa.lra.
Qed.

Lemma unfinished_iff_before_deadline_witness :
  unfinished secondLoop 1500 = true <->
  1500 < startTime secondLoop + duration secondLoop.
Proof.
  apply (unfinished_iff_before_deadline secondLoop 1500). reflexivity.
Defined.

End AnimatorTiming.

Section AnimatorRuns.

Import Animator.
Local Open Scope Q_scope.

Lemma fold_animate_panTo (t : Q) (ls : list Loop) :
  forall a : AnimState,
    panToCalls (fold_left (fun acc l => animate l t acc) ls a) = panToCalls a.
Proof.
  induction ls as [ | l ls IH]; intros a; simpl; [ reflexivity | ].
  rewrite IH. unfold animate. destruct (unfinished l t); reflexivity.
Qed.

Lemma runFrame_panTo (t : Q) (s : AnimState) :
  panToCalls (runFrame t s) = panToCalls s.
Proof.
  unfold runFrame. rewrite fold_animate_panTo. reflexivity.
Qed.

(** With nothing scheduled a frame changes nothing. *)
Lemma runFrame_idle (t : Q) (s : AnimState) :
  frames s = [] -> runFrame t s = s.
Proof.
  intros E. unfold runFrame. rewrite E. simpl.
  destruct s as [m p c r f q]. simpl in E. subst f. reflexivity.
Qed.

(** A single unfinished loop, frame after frame: it stays scheduled and
    writes one interpolated position per frame. *)
Lemma runFrames_single (l : Loop) (ts : list Q) :
  Forall (fun u => unfinished l u = true) ts ->
  forall a : AnimState,
    frames a = [l] ->
    frames (runFrames ts a) = [l] /\
    setLatLngCalls (runFrames ts a) =
      setLatLngCalls a ++ map (interpolate l) ts /\
    panToCalls (runFrames ts a) = panToCalls a.
Proof.
  induction 1 as [ | u ts Hu _ IH]; intros a E; simpl.
  - rewrite app_nil_r. auto.
  - assert (Ef : frames (runFrame u a) = [l])
      by (rewrite runFrame_frames, E; simpl; rewrite Hu; reflexivity).
    destruct (IH (runFrame u a) Ef) as (F & C & P).
    repeat apply conj.
    + exact F.
    + rewrite C, runFrame_calls, E. simpl.
      unfold animateWrites. rewrite Hu. rewrite <- app_assoc. reflexivity.
    + rewrite P. apply runFrame_panTo.
Qed.

(** X19. An animation that nothing interrupts runs to its target.  From
    an idle marker, a change of target schedules one loop and asks for one
    pan; every frame before the deadline writes one interpolated position;
    the first frame at or after it writes the target itself, records it
    as the settled position and empties the queue, after which further
    frames change nothing. *)
Theorem animation_runs_to_target
    (s : AnimState) (now dur : Q) (position start : LatLng)
    (ts : list Q) (t : Q) :
  markerRef s = true -> frames s = [] ->
  prevPositionRef s = Some start ->
  sameLatLng start position = false ->
  let l := mkLoop start position now dur in
  Forall (fun u => unfinished l u = true) ts ->
  unfinished l t = false ->
  let final := runFrame t (runFrames ts (effect now position dur s)) in
  frames final = [] /\
  markerLatLng final = position /\
  prevPositionRef final = Some position /\
  setLatLngCalls final =
    setLatLngCalls s ++ map (interpolate l) ts ++ [interpolate l t; position] /\
  panToCalls final = panToCalls s ++ [position] /\
  (forall t', runFrame t' final = final).
Proof.
  intros Hm Hf Hp Hd l Hts Hfin final.
  assert (Es' : effect now position dur s =
                panTo position (requestAnimationFrame l s)).
  { unfold effect. rewrite Hm, Hp, Hd. reflexivity. }
  assert (Ef : frames (effect now position dur s) = [l])
    by (rewrite Es'; simpl; rewrite Hf; reflexivity).
  destruct (runFrames_single l ts Hts _ Ef) as (F & C & P).
  assert (Efinal : final =
                   animate l t (takeFrames (runFrames ts (effect now position dur s)))).
  { unfold final. rewrite (runFrame_last t _ [] l F). reflexivity. }
  assert (Hframes : frames final = []).
  { unfold final. rewrite runFrame_frames, F. simpl. rewrite Hfin. reflexivity. }
  repeat apply conj.
  - exact Hframes.
  - rewrite Efinal, animate_marker, Hfin. reflexivity.
  - rewrite Efinal, animate_prev, Hfin. reflexivity.
  - unfold final. rewrite runFrame_calls, F, C, Es'. simpl.
    unfold animateWrites. rewrite Hfin. simpl.
    rewrite <- app_assoc. reflexivity.
  - unfold final. rewrite runFrame_panTo, P, Es'. reflexivity.
  - intros t'. apply runFrame_idle. exact Hframes.
Qed.

Lemma animation_runs_to_target_witness :
  let l := mkLoop (0, 0) (10, 0) 0 2000 in
  let final :=
    runFrame 2000 (runFrames [500; 1000] (effect 0 (10, 0) 2000 (mounted (0, 0)))) in
  frames final = [] /\
  markerLatLng final = (10, 0) /\
  prevPositionRef final = Some (10, 0) /\
  setLatLngCalls final =
    setLatLngCalls (mounted (0, 0)) ++ map (interpolate l) [500; 1000]
      ++ [interpolate l 2000; (10, 0)] /\
  panToCalls final = panToCalls (mounted (0, 0)) ++ [(10, 0)] /\
  (forall t', runFrame t' final = final).
Proof.
  apply (animation_runs_to_target (mounted (0, 0)) 0 2000 (10, 0) (0, 0)
           [500; 1000] 2000).
  - reflexivity.
  - reflexivity.
  - reflexivity.
  - reflexivity.
  - repeat constructor.
  - reflexivity.
Defined.

(** X20. When every scheduled loop is due, one frame ends them all: the
    queue is empty afterwards and the marker rests on the target of the
    loop scheduled last, which is also the settled position. *)
Theorem runFrame_drains_due_loops
    (s : AnimState) (t : Q) (older : list Loop) (l : Loop) :
  frames s = older ++ [l] ->
  Forall (fun l' => unfinished l' t = false) (frames s) ->
  frames (runFrame t s) = [] /\
  markerLatLng (runFrame t s) = endLatLng l /\
  prevPositionRef (runFrame t s) = Some (endLatLng l).
Proof.
  intros E Hall.
  assert (Hl : unfinished l t = false).
  { apply (proj1 (Forall_forall _ _) Hall). rewrite E.
    apply in_or_app. right. left. reflexivity. }
  repeat apply conj.
  - rewrite runFrame_frames. clear E Hl.
    induction Hall as [ | x xs Hx _ IH]; [ reflexivity | ].
    simpl. rewrite Hx. exact IH.
  - rewrite (runFrame_last t s older l E), animate_marker, Hl. reflexivity.
  - rewrite (runFrame_last t s older l E), animate_prev, Hl. reflexivity.
Qed.

Lemma runFrame_drains_due_loops_witness :
  frames (runFrame 3000 superseded) = [] /\
  markerLatLng (runFrame 3000 superseded) = endLatLng secondLoop /\
  prevPositionRef (runFrame 3000 superseded) = Some (endLatLng secondLoop).
Proof.
  apply (runFrame_drains_due_loops superseded 3000 [firstLoop] secondLoop).
  - reflexivity.
  - repeat constructor.
Defined.

End AnimatorRuns.

(** ** The properties above on the example route *)

Section WorkedStates.

Import Playback Render.
Local Open Scope Z_scope.

Lemma ticker_exactly_while_playing_witness :
  let s := run [RouteLoaded Kinematics.exampleRoute; ClickPlay] initial in
  (timers s <> [] <->
   isPlaying s = true /\ currentIndex s < len (routeData s) - 1) /\
  (List.length (timers s) <= 1)%nat /\
  (forall t, In t (timers s) -> captured t = routeData s).
Proof.
  apply (ticker_exactly_while_playing
           (run [RouteLoaded Kinematics.exampleRoute; ClickPlay] initial)).
  apply reachable_run. apply reachable_initial.
Defined.

Lemma tick_while_paused_is_noop_witness :
  let s := run [RouteLoaded Kinematics.exampleRoute] initial in
  tick s = s.
Proof.
  apply (tick_while_paused_is_noop
           (run [RouteLoaded Kinematics.exampleRoute] initial)).
  - apply reachable_run. apply reachable_initial.
  - reflexivity.
Defined.

Lemma tick_while_playing_advances_witness :
  let s := run [RouteLoaded Kinematics.exampleRoute; ClickPlay] initial in
  currentIndex (tick s) = currentIndex s + 1 /\
  isPlaying (tick s) = true /\
  routeData (tick s) = routeData s /\
  (timers (tick s) <> [] <-> currentIndex s + 1 < len (routeData s) - 1).
Proof.
  apply (tick_while_playing_advances
           (run [RouteLoaded Kinematics.exampleRoute; ClickPlay] initial)).
  - apply reachable_run. apply reachable_initial.
  - reflexivity.
  - reflexivity.
Defined.

Lemma reset_stops_playback_witness :
  let s := run [RouteLoaded Kinematics.exampleRoute; ClickPlay; IntervalFires]
               initial in
  currentIndex (reset s) = 0 /\
  isPlaying (reset s) = false /\
  routeData (reset s) = routeData s /\
  timers (reset s) = [] /\
  tick (reset s) = reset s.
Proof.
  apply (reset_stops_playback
           (run [RouteLoaded Kinematics.exampleRoute; ClickPlay; IntervalFires]
                initial)).
  - apply reachable_run. apply reachable_initial.
  - simpl. discriminate.
Defined.

Lemma pause_stops_ticker_witness :
  let s := run [RouteLoaded Kinematics.exampleRoute; ClickPlay] initial in
  isPlaying (play s) = false /\
  currentIndex (play s) = currentIndex s /\
  timers (play s) = [] /\
  tick (play s) = play s.
Proof.
  apply (pause_stops_ticker
           (run [RouteLoaded Kinematics.exampleRoute; ClickPlay] initial)).
  - apply reachable_run. apply reachable_initial.
  - reflexivity.
  - reflexivity.
Defined.

Lemma resume_arms_ticker_witness :
  let s := run [RouteLoaded Kinematics.exampleRoute] initial in
  isPlaying (play s) = true /\
  currentIndex (play s) = currentIndex s /\
  exists id, timers (play s) = [mkTimer id (routeData s)].
Proof.
  apply (resume_arms_ticker
           (run [RouteLoaded Kinematics.exampleRoute] initial)).
  - apply reachable_run. apply reachable_initial.
  - reflexivity.
  - reflexivity.
Defined.

Lemma replay_label_never_shown_witness :
  let s := run [RouteLoaded Kinematics.exampleRoute; ClickPlay;
                IntervalFires; IntervalFires] initial in
  controlLabel s <> LabelReplay /\
  (currentIndex s = len (routeData s) - 1 ->
   isPlaying s = true /\ controlLabel s = LabelPause).
Proof.
  apply (replay_label_never_shown
           (run [RouteLoaded Kinematics.exampleRoute; ClickPlay;
                 IntervalFires; IntervalFires] initial)).
  - apply reachable_run. apply reachable_initial.
  - discriminate.
Defined.

Lemma play_twice_restores_witness :
  let s := run [RouteLoaded Kinematics.exampleRoute; ClickPlay; IntervalFires]
               initial in
  isPlaying (play (play s)) = isPlaying s /\
  currentIndex (play (play s)) = currentIndex s /\
  routeData (play (play s)) = routeData s.
Proof.
  apply (play_twice_restores
           (run [RouteLoaded Kinematics.exampleRoute; ClickPlay; IntervalFires]
                initial)).
  - apply reachable_run. apply reachable_initial.
  - reflexivity.
Defined.

Lemma currentPosition_tracks_index_witness :
  let s := run [RouteLoaded Kinematics.exampleRoute; ClickPlay; IntervalFires]
               initial in
  (routeData s <> [] ->
   lookup (routeData s) (currentIndex s) =
   Some (currentPosition (routeData s) (currentIndex s))) /\
  (routeData s = [] ->
   currentPosition (routeData s) (currentIndex s) =
   mkWaypoint (fst INITIAL_CENTER) (snd INITIAL_CENTER) None).
Proof.
  apply (currentPosition_tracks_index
           (run [RouteLoaded Kinematics.exampleRoute; ClickPlay; IntervalFires]
                initial)).
  apply reachable_run. apply reachable_initial.
Defined.

Lemma traveledRouteCoords_prefix_witness :
  let s := run [RouteLoaded Kinematics.exampleRoute; ClickPlay; IntervalFires]
               initial in
  let traveled := traveledRouteCoords (routeData s) (currentIndex s) in
  Z.of_nat (List.length traveled) = currentIndex s + 1 /\
  (exists rest, fullRouteCoords (routeData s) = traveled ++ rest) /\
  (exists before,
      traveled = before ++ [markerPosition (routeData s) (currentIndex s)]) /\
  (currentIndex s = len (routeData s) - 1 ->
   traveled = fullRouteCoords (routeData s)).
Proof.
  apply (traveledRouteCoords_prefix
           (run [RouteLoaded Kinematics.exampleRoute; ClickPlay; IntervalFires]
                initial)).
  - apply reachable_run. apply reachable_initial.
  - simpl. discriminate.
Defined.

Lemma reset_panel_witness :
  let s := run [RouteLoaded Kinematics.exampleRoute; ClickPlay; IntervalFires]
               initial in
  let first := mkWaypoint (17385044 # 1000000) (78486671 # 1000000)
                          (Some "2024-07-20T10:00:00Z"%string) in
  let rd := routeData (reset s) in
  let i := currentIndex (reset s) in
  Kinematics.calculateSpeedKmH Kinematics.exampleDate i rd = "0.00"%string /\
  currentPosition rd i = first /\
  traveledRouteCoords rd i = [coords first] /\
  (Kinematics.progressPercentage i (len rd) == 100 / inject_Z (len rd))%Q /\
  (Kinematics.falsy (timestamp first) = true \/
   Kinematics.exampleDate (timestamp first) <> None ->
   elapsedDisplay Kinematics.exampleDate rd i = Some "00:00"%string).
Proof.
  apply (reset_panel Kinematics.exampleDate
           (run [RouteLoaded Kinematics.exampleRoute; ClickPlay; IntervalFires]
                initial)
           (mkWaypoint (17385044 # 1000000) (78486671 # 1000000)
                       (Some "2024-07-20T10:00:00Z"%string))
           [ mkWaypoint (173855 # 10000) (784867 # 10000)
                        (Some "2024-07-20T10:00:05Z"%string);
             mkWaypoint (17386 # 1000) (78487 # 1000)
                        (Some "2024-07-20T11:15:03Z"%string) ]).
  - apply reachable_run. apply reachable_initial.
  - reflexivity.
Defined.

Lemma tick_moves_marker_target_witness :
  let s := run [RouteLoaded Kinematics.exampleRoute; ClickPlay] initial in
  markerPosition (routeData (tick s)) (currentIndex (tick s)) =
  coords (mkWaypoint (173855 # 10000) (784867 # 10000)
                     (Some "2024-07-20T10:00:05Z"%string)).
Proof.
  apply (tick_moves_marker_target
           (run [RouteLoaded Kinematics.exampleRoute; ClickPlay] initial)).
  - apply reachable_run. apply reachable_initial.
  - reflexivity.
  - reflexivity.
Defined.

End WorkedStates.

Section StationarySpeed.

Import Kinematics.
Local Open Scope string_scope.

Variable Date_getTime : option string -> option Z.

Lemma distance_self (lat1 lon1 : R) :
  calculateDistanceKm lat1 lon1 lat1 lon1 = 0%R.
Proof.
  unfold calculateDistanceKm. cbv zeta.
  replace ((lat1 - lat1) * PI / 180 / 2)%R with 0%R by field.
  replace ((lon1 - lon1) * PI / 180 / 2)%R with 0%R by field.
  rewrite sin_0.
  replace (0 * 0 + cos (lat1 * PI / 180) * cos (lat1 * PI / 180) * 0 * 0)%R
    with 0%R by ring.
  rewrite Rminus_0_r, sqrt_0, sqrt_1, Math_atan2_0_1. ring.
Qed.

Lemma Int_part_half : Int_part (/ 2) = 0%Z.
Proof.
  unfold Int_part.
  assert (E : 1%Z = up (/ 2)) by (apply tech_up; simpl; lra).
  rewrite <- E. reflexivity.
Qed.

Lemma toFixed2_zero : toFixed2 0 = "0.00".
Proof.
  unfold toFixed2.
  destruct (Rlt_dec 0 0) as [H | _]; [ lra | ].
  replace (Rabs 0 * 100 + / 2)%R with (/ 2)%R
    by (rewrite Rabs_R0; ring).
  rewrite Int_part_half. reflexivity.
Qed.

(** X21. A vehicle that did not move shows a speed of ["0.00"]: when the
    point at the index has the coordinates of the one before it and a
    later timestamp, the distance is 0 and so is the speed. *)
Theorem calculateSpeedKmH_stationary
    (i : Z) (rd : list Waypoint) (p c : Waypoint) (ms : Z) :
  lookup rd (i - 1) = Some p -> lookup rd i = Some c ->
  lat c = lat p -> lng c = lng p ->
  timeDeltaMs Date_getTime p c = Some ms -> (0 < ms)%Z ->
  calculateSpeedKmH Date_getTime i rd = "0.00".
Proof.
  intros Hp Hc Elat Elng Ems Hpos.
  assert (Hi1 : (0 <= i - 1 <= len rd - 1)%Z)
    by (apply lookup_Some_iff; exists p; exact Hp).
  assert (Hi : (0 <= i <= len rd - 1)%Z)
    by (apply lookup_Some_iff; exists c; exact Hc).
  rewrite (calculateSpeedKmH_in_range Date_getTime i rd p c)
    by (assumption || lia).
  rewrite Ems.
  destruct (Rle_dec (timeDeltaHours ms) 0) as [Hle | _].
  - apply timeDeltaHours_nonpos_iff in Hle. lia.
  - unfold distanceKm. rewrite Elat, Elng, distance_self.
    unfold Rdiv. rewrite Rmult_0_l. apply toFixed2_zero.
Qed.

End StationarySpeed.

Lemma calculateSpeedKmH_stationary_witness :
  let p := mkWaypoint (17385044 # 1000000) (78486671 # 1000000)
                      (Some "2024-07-20T10:00:00Z"%string) in
  let c := mkWaypoint (17385044 # 1000000) (78486671 # 1000000)
                      (Some "2024-07-20T10:00:05Z"%string) in
  Kinematics.calculateSpeedKmH Kinematics.exampleDate 1 [p; c] = "0.00"%string.
Proof.
  intros p c.
  apply (calculateSpeedKmH_stationary Kinematics.exampleDate 1 [p; c] p c 5000).
  - reflexivity.
  - reflexivity.
  - reflexivity.
  - reflexivity.
  - reflexivity.
  - lia.
Defined.

Section TickCount.

Import Playback.
Local Open Scope Z_scope.

(** With no live interval any number of ticks changes nothing. *)
Lemma ticks_without_timer (n : nat) (s : AppState) :
  timers s = [] -> run (repeat IntervalFires n) s = s.
Proof.
  intros E. induction n as [ | n IH]; [ reflexivity | ].
  simpl repeat. unfold run. simpl fold_left.
  fold (run (repeat IntervalFires n) (tick s)).
  assert (Et : tick s = s) by (unfold tick; rewrite E; reflexivity).
  rewrite Et. exact IH.
Qed.

Lemma run_app (es1 es2 : list Event) (s : AppState) :
  run (es1 ++ es2) s = run es2 (run es1 s).
Proof.
  unfold run. apply fold_left_app.
Qed.

(** X22. Playback counts ticks and stops counting at the end: from a
    freshly loaded non-empty route, play followed by [n] ticks stands at
    index [min(n, length - 1)], still flagged as playing, with an
    interval live exactly when that index is short of the last one. *)
Theorem ticks_count_index (rd : list Waypoint) (n : nat) :
  rd <> [] ->
  let s := run (repeat IntervalFires n) (play (load rd initial)) in
  currentIndex s = Z.min (Z.of_nat n) (len rd - 1) /\
  isPlaying s = true /\
  routeData s = rd /\
  (timers s <> [] <-> Z.of_nat n < len rd - 1).
Proof.
  intros Hne s. pose proof (len_pos rd Hne) as Hlen.
  pose proof (play_loaded rd Hne) as H0.
  destruct (Z.le_gt_cases (Z.of_nat n) (len rd - 1)) as [Hle | Hgt].
  - assert (Hp : playingAt rd (0 + Z.of_nat n) s)
      by (apply playingAt_ticks; [ lia | lia | exact H0 ]).
    rewrite Z.add_0_l in Hp.
    destruct Hp as (Erd & Ek & Ep & _ & _ & Ht).
    rewrite Z.min_l by exact Hle.
    repeat apply conj; try assumption.
    + intros Hts. destruct (Z.ltb_spec (Z.of_nat n) (len rd - 1)) as [L | L];
        [ exact L | contradiction ].
    + intros L. destruct (Z.ltb_spec (Z.of_nat n) (len rd - 1)) as [_ | L'];
        [ | lia ].
      destruct Ht as [id Ht]. rewrite Ht. discriminate.
  - set (k := Z.to_nat (len rd - 1)).
    assert (En : n = (k + (n - k))%nat) by lia.
    assert (Es : s = run (repeat IntervalFires k) (play (load rd initial))).
    { unfold s. rewrite En at 1. rewrite repeat_app, run_app.
      apply ticks_without_timer.
      assert (Hp : playingAt rd (0 + Z.of_nat k)
                     (run (repeat IntervalFires k) (play (load rd initial))))
        by (apply playingAt_ticks; [ lia | lia | exact H0 ]).
      destruct Hp as (_ & _ & _ & _ & _ & Ht).
      destruct (Z.ltb_spec (0 + Z.of_nat k) (len rd - 1)) as [L | _];
        [ lia | exact Ht ]. }
    assert (Hp : playingAt rd (0 + Z.of_nat k) s)
      by (rewrite Es; apply playingAt_ticks; [ lia | lia | exact H0 ]).
    destruct Hp as (Erd & Ek & Ep & _ & _ & Ht).
    destruct (Z.ltb_spec (0 + Z.of_nat k) (len rd - 1)) as [L | _]; [ lia | ].
    rewrite Z.min_r by lia.
    repeat apply conj; try assumption.
    + rewrite Ek. lia.
    + intros Hts. contradiction.
    + intros L. lia.
Qed.

Lemma ticks_count_index_witness :
  let rd := Kinematics.exampleRoute in
  let s := run (repeat IntervalFires 5) (play (load rd initial)) in
  currentIndex s = Z.min (Z.of_nat 5) (len rd - 1) /\
  isPlaying s = true /\
  routeData s = rd /\
  (timers s <> [] <-> Z.of_nat 5 < len rd - 1).
Proof.
  apply (ticks_count_index Kinematics.exampleRoute 5). discriminate.
Defined.

End TickCount.
